(** * The protobuf reader of [scripts/antigravity_quota.py]

    A shallow embedding of the five decoding functions of the script
    ([read_varint], [skip_field], [find_field], [parse_timestamp],
    [parse_oauth_token_info]) and the properties its specification states
    about them.

    Python values are modelled as follows:
    - [int] is [Z] (unbounded), with [&], [|], [<<], [>>] as [Z.land],
      [Z.lor], [Z.shiftl], [Z.shiftr];
    - [bytes] is [list byte]; [data[i]] is [getitem] (negative indices count
      from the end, anything else out of range raises [IndexError]) and
      [data[lo:hi]] is [slice] (both ends clamped, never raises);
    - [str] is the list of its code points; [bytes.decode("utf-8")] is
      [utf8_decode];
    - [dict[str, Any]] is a [gmap string pyval];
    - a call either returns or raises: [outcome]. *)

From Stdlib Require Import ZArith List Bool Lia.
From Stdlib Require Import Init.Byte Strings.Byte.
From Stdlib Require Import Floats.PrimFloat.
From stdpp Require Import gmap strings list fin_maps.

Local Open Scope Z_scope.

(** ** Python values *)

Abbreviation bytes := (list byte).

Definition byte_val (b : byte) : Z := Z.of_N (Byte.to_N b).

Definition len (data : bytes) : Z := Z.of_nat (length data).

(** The exceptions the decoder can meet.  [IncompleteVarint] and
    [UnknownWireType] are the two [ValueError]s the script raises itself;
    [UnicodeDecodeError] comes from [bytes.decode] and [IndexError] from
    indexing.  [LoopBudget] is not a Python exception: it is what a loop of
    the model answers when its iteration budget is used up, and is shown
    below never to happen. *)
Inductive exn : Type :=
| IncompleteVarint
| UnknownWireType (wire_type : Z)
| UnicodeDecodeError
| IndexError
| LoopBudget.

(** [except ValueError] catches [ValueError] and its subclasses;
    [UnicodeDecodeError] is one of them. *)
Definition is_ValueError (e : exn) : bool :=
  match e with
  | IncompleteVarint | UnknownWireType _ | UnicodeDecodeError => true
  | IndexError | LoopBudget => false
  end.

Inductive outcome (A : Type) : Type :=
| Return (a : A)
| Raise (e : exn).

Arguments Return {A} a.
Arguments Raise {A} e.

(** Sequencing: an exception raised by the first call ends the whole
    computation.  The [x ← m; k] notation is stdpp's. *)
#[global] Instance outcome_bind : MBind outcome := fun A B k m =>
  match m with
  | Return a => k a
  | Raise e => Raise e
  end.

(** [data[i]] *)
Definition getitem (data : bytes) (i : Z) : outcome byte :=
  let j := if i <? 0 then i + len data else i in
  if j <? 0 then Raise IndexError
  else match data !! Z.to_nat j with
       | Some b => Return b
       | None => Raise IndexError
       end.

(** How a slice bound is adjusted to the sequence: a negative bound counts
    from the end, and the result is clamped to [0 .. len]. *)
Definition clamp (n i : Z) : Z :=
  if i <? 0 then Z.max 0 (i + n) else Z.min i n.

(** [data[lo:hi]] *)
Definition slice (data : bytes) (lo hi : Z) : bytes :=
  let l := clamp (len data) lo in
  let h := clamp (len data) hi in
  take (Z.to_nat (h - l)) (drop (Z.to_nat l) data).

(** [str], as its code points *)
Abbreviation str := (list Z).

Inductive pyval : Type :=
| PyStr (s : str)
| PyInt (n : Z)
| PyNone.

Definition of_optional_int (o : option Z) : pyval :=
  match o with
  | Some n => PyInt n
  | None => PyNone
  end.

(** The [str] of a literal of the source, from its characters. *)
Definition text (s : string) : str :=
  map (fun c => Z.of_N (Ascii.N_of_ascii c)) (String.list_ascii_of_string s).

(** A continuation byte [10xxxxxx] and its six payload bits. *)
Definition utf8_cont (b : byte) : option Z :=
  let v := byte_val b in
  if (0x80 <=? v) && (v <=? 0xBF) then Some (Z.land v 0x3F) else None.

(** [bytes.decode("utf-8")] with the default strict error handler: [None]
    stands for [UnicodeDecodeError].  Overlong forms, surrogates and code
    points above [0x10FFFF] are refused. *)
Fixpoint utf8_decode (bs : bytes) : option str :=
  match bs with
  | [] => Some []
  | b0 :: r0 =>
    let v0 := byte_val b0 in
    if v0 <? 0x80 then
      match utf8_decode r0 with Some s => Some (v0 :: s) | None => None end
    else if (0xC2 <=? v0) && (v0 <=? 0xDF) then
      match r0 with
      | b1 :: r1 =>
        match utf8_cont b1, utf8_decode r1 with
        | Some c1, Some s =>
          Some (Z.lor (Z.shiftl (Z.land v0 0x1F) 6) c1 :: s)
        | _, _ => None
        end
      | _ => None
      end
    else if (0xE0 <=? v0) && (v0 <=? 0xEF) then
      match r0 with
      | b1 :: b2 :: r2 =>
        match utf8_cont b1, utf8_cont b2, utf8_decode r2 with
        | Some c1, Some c2, Some s =>
          let cp := Z.lor (Z.shiftl (Z.land v0 0x0F) 12)
                          (Z.lor (Z.shiftl c1 6) c2) in
          if (cp <? 0x800) || ((0xD800 <=? cp) && (cp <=? 0xDFFF)) then None
          else Some (cp :: s)
        | _, _, _ => None
        end
      | _ => None
      end
    else if (0xF0 <=? v0) && (v0 <=? 0xF4) then
      match r0 with
      | b1 :: b2 :: b3 :: r3 =>
        match utf8_cont b1, utf8_cont b2, utf8_cont b3, utf8_decode r3 with
        | Some c1, Some c2, Some c3, Some s =>
          let cp := Z.lor (Z.shiftl (Z.land v0 0x07) 18)
                          (Z.lor (Z.shiftl c1 12) (Z.lor (Z.shiftl c2 6) c3)) in
          if (cp <? 0x10000) || (0x10FFFF <? cp) then None
          else Some (cp :: s)
        | _, _, _, _ => None
        end
      | _ => None
      end
    else None
  end.

(** [value.decode("utf-8")] *)
Definition decode_utf8 (value : bytes) : outcome str :=
  match utf8_decode value with
  | Some s => Return s
  | None => Raise UnicodeDecodeError
  end.

(** ** The decoder *)

(** The [while pos < len(data)] loop of [read_varint].  Each round moves
    [pos] one byte forward, so [len data - pos] rounds and the final test
    are all the loop can make. *)
Fixpoint read_varint_loop (fuel : nat) (data : bytes) (result shift pos : Z)
  : outcome (Z * Z) :=
  match fuel with
  | O => Raise LoopBudget
  | S fuel' =>
    if pos <? len data then
      byte ← getitem data pos;
      let byte := byte_val byte in
      let result := Z.lor result (Z.shiftl (Z.land byte 0x7F) shift) in
      let pos := pos + 1 in
      if Z.land byte 0x80 =? 0 then Return (result, pos)
      else read_varint_loop fuel' data result (shift + 7) pos
    else Raise IncompleteVarint
  end.

Definition read_varint (data : bytes) (offset : Z) : outcome (Z * Z) :=
  read_varint_loop (S (Z.to_nat (len data - offset))) data 0 0 offset.

Definition skip_field (data : bytes) (offset wire_type : Z) : outcome Z :=
  if wire_type =? 0 then
    '(_, new_offset) ← read_varint data offset;
    Return new_offset
  else if wire_type =? 1 then
    Return (offset + 8)
  else if wire_type =? 2 then
    '(length, content_offset) ← read_varint data offset;
    Return (content_offset + length)
  else if wire_type =? 5 then
    Return (offset + 4)
  else Raise (UnknownWireType wire_type).

(** The [while offset < len(data)] loop of [find_field].  Only the read of
    the tag stands inside the [try]: a [ValueError] there leaves the loop,
    and the function returns [None]. *)
Fixpoint find_field_loop (fuel : nat) (data : bytes) (target_field offset : Z)
  : outcome (option bytes) :=
  match fuel with
  | O => Raise LoopBudget
  | S fuel' =>
    if offset <? len data then
      match read_varint data offset with
      | Raise e => if is_ValueError e then Return None else Raise e
      | Return (tag, new_offset) =>
        let wire_type := Z.land tag 7 in
        let field_num := Z.shiftr tag 3 in
        if (field_num =? target_field) && (wire_type =? 2) then
          '(length, content_offset) ← read_varint data new_offset;
          Return (Some (slice data content_offset (content_offset + length)))
        else
          offset ← skip_field data new_offset wire_type;
          find_field_loop fuel' data target_field offset
      end
    else Return None
  end.

Definition find_field (data : bytes) (target_field : Z)
  : outcome (option bytes) :=
  find_field_loop (S (length data)) data target_field 0.

Fixpoint parse_timestamp_loop (fuel : nat) (data : bytes) (offset : Z)
  : outcome (option Z) :=
  match fuel with
  | O => Raise LoopBudget
  | S fuel' =>
    if offset <? len data then
      '(tag, new_offset) ← read_varint data offset;
      let wire_type := Z.land tag 7 in
      let field_num := Z.shiftr tag 3 in
      let offset := new_offset in
      if (field_num =? 1) && (wire_type =? 0) then
        '(seconds, _) ← read_varint data offset;
        Return (Some seconds)
      else
        offset ← skip_field data offset wire_type;
        parse_timestamp_loop fuel' data offset
    else Return None
  end.

Definition parse_timestamp (data : bytes) : outcome (option Z) :=
  parse_timestamp_loop (S (length data)) data 0.

(** The [while] loop of [parse_oauth_token_info]; [info] is the dictionary
    being filled. *)
Fixpoint parse_oauth_token_info_loop (fuel : nat) (data : bytes)
  (info : gmap string pyval) (offset : Z) : outcome (gmap string pyval) :=
  match fuel with
  | O => Raise LoopBudget
  | S fuel' =>
    if offset <? len data then
      '(tag, new_offset) ← read_varint data offset;
      let wire_type := Z.land tag 7 in
      let field_num := Z.shiftr tag 3 in
      let offset := new_offset in
      if wire_type =? 2 then
        '(length, content_offset) ← read_varint data offset;
        let value := slice data content_offset (content_offset + length) in
        let offset := content_offset + length in
        info ←
          (if field_num =? 1 then
             s ← decode_utf8 value;
             Return (<["access_token" := PyStr s]> info)
           else if field_num =? 2 then
             s ← decode_utf8 value;
             Return (<["token_type" := PyStr s]> info)
           else if field_num =? 3 then
             s ← decode_utf8 value;
             Return (<["refresh_token" := PyStr s]> info)
           else if field_num =? 4 then
             t ← parse_timestamp value;
             Return (<["expiry_seconds" := of_optional_int t]> info)
           else Return info);
        parse_oauth_token_info_loop fuel' data info offset
      else
        offset ← skip_field data offset wire_type;
        parse_oauth_token_info_loop fuel' data info offset
    else Return info
  end.

Definition parse_oauth_token_info (data : bytes) : outcome (gmap string pyval) :=
  parse_oauth_token_info_loop (S (length data)) data ∅ 0.

(** ** The wire format, as the specification describes it *)

(** [varint_value bs] is the integer a byte sequence stands for when it is
    exactly one variable-length integer: every byte but the last has its
    high bit set, and the low seven bits of each byte are one group of the
    value, least-significant group first. *)
Fixpoint varint_value (bs : bytes) : option Z :=
  match bs with
  | [] => None
  | b :: rest =>
    if byte_val b <? 128 then
      match rest with
      | [] => Some (byte_val b)
      | _ :: _ => None
      end
    else
      match varint_value rest with
      | Some v => Some (byte_val b - 128 + 128 * v)
      | None => None
      end
  end.

Definition of_Z (v : Z) : byte :=
  match Byte.of_N (Z.to_N v) with
  | Some b => b
  | None => x00
  end.

(** The base-128 continuation-bit encoding of a non-negative integer:
    seven payload bits per byte, least-significant group first, the high bit
    set on every byte but the last.  [n] bounds the number of bytes. *)
Fixpoint encode_varint_bytes (n : nat) (v : Z) : bytes :=
  match n with
  | O => []
  | S n' =>
    if v <? 128 then [of_Z v]
    else of_Z (v mod 128 + 128) :: encode_varint_bytes n' (v / 128)
  end.

(** A value below [2 ^ 64] takes at most ten bytes. *)
Definition encode_varint (v : Z) : bytes := encode_varint_bytes 10 v.

(** The variable-length integer that starts a byte sequence, with the
    number of bytes it takes; [None] when the sequence ends before a byte
    with a clear high bit. *)
Fixpoint leading_varint (bs : bytes) : option (Z * Z) :=
  match bs with
  | [] => None
  | b :: rest =>
    if byte_val b <? 128 then Some (byte_val b, 1)
    else
      match leading_varint rest with
      | Some (v, n) => Some (byte_val b - 128 + 128 * v, 1 + n)
      | None => None
      end
  end.

(** An answer of [read_varint] on the tail of a buffer, seen from the whole
    buffer: the offset moves by the length of what comes before. *)
Definition shift_offset (k : Z) (r : outcome (Z * Z)) : outcome (Z * Z) :=
  match r with
  | Return (v, p) => Return (v, k + p)
  | Raise e => Raise e
  end.

(** The value part of a field, with the bytes it is written with: a varint
    (wire type 0), eight bytes (wire type 1), a length varint followed by
    the value bytes (wire type 2), or four bytes (wire type 5). *)
Inductive payload : Type :=
| Varint (raw : bytes)
| Fixed64 (raw : bytes)
| LengthDelimited (length_raw value : bytes)
| Fixed32 (raw : bytes).

Record field : Type := Field { tag_raw : bytes; body : payload }.

Definition wire_type_of (p : payload) : Z :=
  match p with
  | Varint _ => 0
  | Fixed64 _ => 1
  | LengthDelimited _ _ => 2
  | Fixed32 _ => 5
  end.

Definition payload_bytes (p : payload) : bytes :=
  match p with
  | Varint raw | Fixed64 raw | Fixed32 raw => raw
  | LengthDelimited length_raw value => length_raw ++ value
  end.

Definition valid_payload (p : payload) : bool :=
  match p with
  | Varint raw => bool_decide (is_Some (varint_value raw))
  | Fixed64 raw => bool_decide (length raw = 8%nat)
  | LengthDelimited length_raw value =>
    bool_decide (varint_value length_raw = Some (len value))
  | Fixed32 raw => bool_decide (length raw = 4%nat)
  end.

Definition tag_value (f : field) : Z :=
  match varint_value (tag_raw f) with
  | Some tag => tag
  | None => 0
  end.

Definition field_number (f : field) : Z := Z.shiftr (tag_value f) 3.

(** A valid field: the tag is a varint whose low three bits are the wire
    type of the value that follows, and the value is complete. *)
Definition valid_field (f : field) : bool :=
  bool_decide (is_Some (varint_value (tag_raw f)))
  && (Z.land (tag_value f) 7 =? wire_type_of (body f))
  && valid_payload (body f).

Definition field_bytes (f : field) : bytes :=
  tag_raw f ++ payload_bytes (body f).

(** The buffer a sequence of fields is read from. *)
Definition serialize (fs : list field) : bytes :=
  concat (map field_bytes fs).

(** A buffer is well formed when it scans from offset 0 as a sequence of
    valid fields. *)
Definition well_formed (data : bytes) : Prop :=
  exists fs, forallb valid_field fs = true /\ data = serialize fs.

(** The value bytes of the first length-delimited field with a given
    number. *)
Fixpoint first_length_delimited (target : Z) (fs : list field)
  : option bytes :=
  match fs with
  | [] => None
  | f :: fs' =>
    match body f with
    | LengthDelimited _ value =>
      if field_number f =? target then Some value
      else first_length_delimited target fs'
    | _ => first_length_delimited target fs'
    end
  end.

(** The value of the first varint field with a given number. *)
Fixpoint first_varint (target : Z) (fs : list field) : option Z :=
  match fs with
  | [] => None
  | f :: fs' =>
    match body f with
    | Varint raw =>
      if field_number f =? target then varint_value raw
      else first_varint target fs'
    | _ => first_varint target fs'
    end
  end.

(** A length-delimited field with the given number: what [find_field]
    looks for, and what [parse_oauth_token_info] stores. *)
Definition length_delimited_as (target : Z) (f : field) : bool :=
  match body f with
  | LengthDelimited _ _ => field_number f =? target
  | _ => false
  end.

(** A varint field with the given number: what [parse_timestamp] looks
    for. *)
Definition varint_as (target : Z) (f : field) : bool :=
  match body f with
  | Varint _ => field_number f =? target
  | _ => false
  end.

(** A byte whose continuation (high) bit is set. *)
Definition continues (b : byte) : bool := 128 <=? byte_val b.

(** The key of the Token Info Record a field number is stored under. *)
Definition record_key (field_num : Z) : option string :=
  if field_num =? 1 then Some "access_token"
  else if field_num =? 2 then Some "token_type"
  else if field_num =? 3 then Some "refresh_token"
  else if field_num =? 4 then Some "expiry_seconds"
  else None.

(** What is stored for a length-delimited field: the text of fields 1 to 3,
    the result of the Timestamp Decoder for field 4. *)
Definition record_value (field_num : Z) (value : bytes) : outcome pyval :=
  if field_num =? 4 then
    t ← parse_timestamp value; Return (of_optional_int t)
  else
    s ← decode_utf8 value; Return (PyStr s).

(** One field of the record: a length-delimited field with a known number
    is stored under its key, every other field is passed over. *)
Definition store_field (info : gmap string pyval) (f : field)
  : outcome (gmap string pyval) :=
  match body f with
  | LengthDelimited _ value =>
    match record_key (field_number f) with
    | Some key =>
      v ← record_value (field_number f) value;
      Return (<[key := v]> info)
    | None => Return info
    end
  | _ => Return info
  end.

(** The record assembled from the fields, in buffer order. *)
Fixpoint assemble (fs : list field) (info : gmap string pyval)
  : outcome (gmap string pyval) :=
  match fs with
  | [] => Return info
  | f :: fs' => info ← store_field info f; assemble fs' info
  end.

(** ** The callers of the decoder *)

(** A field that [parse_oauth_token_info] stores: a length-delimited field
    whose number has a key in the record. *)
Definition stored (f : field) : bool :=
  match body f with
  | LengthDelimited _ _ =>
    match record_key (field_number f) with
    | Some _ => true
    | None => false
    end
  | _ => false
  end.

(** What an entry of a record can be: a text under one of the three string
    keys, or [None] or a non-negative integer under [expiry_seconds]. *)
Definition entry_ok (key : string) (v : pyval) : Prop :=
  match v with
  | PyStr _ =>
    key = "access_token" \/ key = "token_type" \/ key = "refresh_token"
  | PyInt n => key = "expiry_seconds" /\ 0 <= n
  | PyNone => key = "expiry_seconds"
  end.

(** The truth value of an object, as [if x] and [not x] take it. *)
Definition truthy (v : pyval) : bool :=
  match v with
  | PyStr [] => false
  | PyStr (_ :: _) => true
  | PyInt n => negb (n =? 0)
  | PyNone => false
  end.

(** How the part of [read_local_token_info] that follows the base64
    decoding can end: with the record, with the [ValueError] it raises
    itself when field 6 gives nothing, or with an exception of the
    decoder. *)
Inductive loaded : Type :=
| Loaded (token_info : gmap string pyval)
| NoCredentials
| DecodeError (e : exn).

(** [read_local_token_info] from [raw = base64.b64decode(state_value)] on:
    the OAuth record is field 6 of the state; [not oauth_field] holds for
    [None] and for the empty bytes. *)
Definition read_local_token_info_from (raw : bytes) : loaded :=
  match find_field raw 6 with
  | Raise e => DecodeError e
  | Return None | Return (Some []) => NoCredentials
  | Return (Some oauth_field) =>
    match parse_oauth_token_info oauth_field with
    | Return token_info => Loaded token_info
    | Raise e => DecodeError e
    end
  end.

(** The test of [main] on the record: [token_info.get("refresh_token")],
    and [None] when [not refresh_token] sends it to [sys.exit(1)];
    otherwise the value handed to [refresh_access_token]. *)
Definition login_refresh_token (token_info : gmap string pyval)
  : option pyval :=
  match token_info !! "refresh_token" with
  | Some refresh_token =>
    if negb (truthy refresh_token) then None else Some refresh_token
  | None => None
  end.

(** A value read from JSON by [response.json()]. *)
#[warnings="-register-all"]
Inductive json : Type :=
| JNone
| JBool (b : bool)
| JInt (n : Z)
| JFloat (x : PrimFloat.float)
| JStr (s : str)
| JList (l : list json)
| JDict (d : gmap string json).

(** The truth value of a JSON value. *)
Definition json_truthy (v : json) : bool :=
  match v with
  | JNone => false
  | JBool b => b
  | JInt n => negb (n =? 0)
  | JFloat x => negb (PrimFloat.eqb x PrimFloat.zero)
  | JStr [] => false
  | JStr (_ :: _) => true
  | JList [] => false
  | JList (_ :: _) => true
  | JDict d => negb (bool_decide (dom d = ∅))
  end.

(** [d.get(key)], [None] when the key is missing. *)
Definition dict_get (d : gmap string json) (key : string) : json :=
  match d !! key with
  | Some v => v
  | None => JNone
  end.

(** [extract_project_id]; the result [None] of the function is [None]
    here. *)
Definition extract_project_id (data : gmap string json) : option json :=
  let project := dict_get data "cloudaicompanionProject" in
  match project with
  | JStr _ => if json_truthy project then Some project else None
  | JDict d =>
    if json_truthy (dict_get d "id") then d !! "id" else None
  | _ => None
  end.

(** The [payload] that [fetch_available_models] posts. *)
Definition models_payload (project_id : option json) : gmap string json :=
  match project_id with
  | Some v => if json_truthy v then <["project" := v]> ∅ else ∅
  | None => ∅
  end.

(** The name of a model in a row of [print_quota_table]: a name of more
    than 33 characters is cut to its first 30 followed by three dots. *)
Definition shown_name (display_name : str) : str :=
  if 33 <? Z.of_nat (length display_name)
  then take 30 display_name ++ text "..."
  else display_name.

(** [f"{s:<width}"]: spaces are added on the right up to the width. *)
Definition ljust (width : nat) (s : str) : str :=
  s ++ replicate (width - length s) 32.

(** The cell of the name in a row: [f"{display_name:<35}"]. *)
Definition name_cell (display_name : str) : str :=
  ljust 35 (shown_name display_name).

(** ** First checks on concrete buffers *)

Example read_varint_300 : read_varint [xac; x02] 0 = Return (300, 2).
Proof. reflexivity. Qed.

Example find_field_first :
  find_field [x08; x01; x32; x02; x41; x42; x32; x01; x43] 6
  = Return (Some [x41; x42]).
Proof. reflexivity. Qed.

Example encode_varint_300 : encode_varint 300 = [xac; x02].
Proof. reflexivity. Qed.

Example parse_example :
  parse_oauth_token_info
    [x0a; x03; x41; x54; x31; x1a; x03; x52; x54; x31;
     x22; x06; x08; x80; xe2; xcf; xaa; x06]
  = Return (<["expiry_seconds" := PyInt 1700000000]>
             (<["refresh_token" := PyStr [82; 84; 49]]>
               (<["access_token" := PyStr [65; 84; 49]]> ∅))).
Proof. vm_compute. reflexivity. Qed.

(** ** Bytes, indices and slices *)

Lemma byte_val_range (b : byte) : 0 <= byte_val b < 256.
Proof.
  unfold byte_val. pose proof (Byte.to_N_bounded b) as H. lia.
Qed.

Lemma byte_high_bit (b : byte) :
  (Z.land (byte_val b) 0x80 =? 0) = (byte_val b <? 128).
Proof. destruct b; reflexivity. Qed.

Lemma byte_low_bits (b : byte) :
  Z.land (byte_val b) 0x7F
  = if byte_val b <? 128 then byte_val b else byte_val b - 128.
Proof. destruct b; reflexivity. Qed.

Lemma byte_val_of_Z (v : Z) : 0 <= v < 256 -> byte_val (of_Z v) = v.
Proof.
  intros Hv. unfold of_Z, byte_val.
  destruct (Byte.of_N (Z.to_N v)) as [b|] eqn:E.
  - apply Byte.to_of_N in E. lia.
  - apply Byte.of_N_None_iff in E. lia.
Qed.

Lemma len_nonneg (data : bytes) : 0 <= len data.
Proof. unfold len. lia. Qed.

Lemma len_nil : len [] = 0.
Proof. reflexivity. Qed.

Lemma len_cons (b : byte) (data : bytes) : len (b :: data) = 1 + len data.
Proof. unfold len. simpl length. lia. Qed.

Lemma len_app (d1 d2 : bytes) : len (d1 ++ d2) = len d1 + len d2.
Proof. unfold len. rewrite length_app. lia. Qed.

Lemma getitem_prefix (pre d : bytes) (o : Z) :
  0 <= o -> getitem (pre ++ d) (len pre + o) = getitem d o.
Proof.
  intros Ho. pose proof (len_nonneg pre) as Hp. unfold getitem. cbv zeta.
  destruct (len pre + o <? 0) eqn:E1; [lia|].
  destruct (o <? 0) eqn:E2; [lia|].
  rewrite E1, E2.
  replace (Z.to_nat (len pre + o)) with (length pre + Z.to_nat o)%nat
    by (unfold len; lia).
  by rewrite lookup_app_r, Nat.add_comm, Nat.add_sub by lia.
Qed.

Lemma getitem_head (b : byte) (d : bytes) : getitem (b :: d) 0 = Return b.
Proof. reflexivity. Qed.

Lemma getitem_in_range (data : bytes) (i : Z) :
  0 <= i < len data -> exists b, getitem data i = Return b.
Proof.
  intros Hi. unfold getitem. cbv zeta.
  destruct (i <? 0) eqn:E; [lia|]. rewrite E.
  destruct (data !! Z.to_nat i) as [b|] eqn:L; [by exists b|].
  apply lookup_ge_None in L. unfold len in Hi. lia.
Qed.

Lemma slice_exact (pre v post : bytes) :
  slice (pre ++ v ++ post) (len pre) (len pre + len v) = v.
Proof.
  pose proof (len_nonneg pre). pose proof (len_nonneg v).
  pose proof (len_nonneg post).
  unfold slice, clamp. rewrite !len_app.
  destruct (len pre <? 0) eqn:E1; [lia|].
  destruct (len pre + len v <? 0) eqn:E2; [lia|].
  rewrite !Z.min_l by lia.
  replace (Z.to_nat (len pre)) with (length pre) by (unfold len; lia).
  replace (Z.to_nat (len pre + len v - len pre)) with (length v)
    by (unfold len; lia).
  by rewrite drop_app_length, take_app_length.
Qed.

(** A slice whose declared end lies beyond the buffer is cut at the end of
    the buffer. *)
Lemma slice_short (pre rest : bytes) (n : Z) :
  len rest <= n -> slice (pre ++ rest) (len pre) (len pre + n) = rest.
Proof.
  intros Hn. pose proof (len_nonneg pre). pose proof (len_nonneg rest).
  unfold slice, clamp. rewrite !len_app.
  destruct (len pre <? 0) eqn:E1; [lia|].
  destruct (len pre + n <? 0) eqn:E2; [lia|].
  rewrite (Z.min_r (len pre + n)), (Z.min_l (len pre)) by lia.
  replace (Z.to_nat (len pre)) with (length pre) by (unfold len; lia).
  replace (Z.to_nat (len pre + len rest - len pre)) with (length rest)
    by (unfold len; lia).
  by rewrite drop_app_length, firstn_all.
Qed.

(** ** The Variable-Length Integer Decoder *)

Lemma add_lor_low (lo v : Z) :
  0 <= lo < 128 -> lo + 128 * v = Z.lor lo (Z.shiftl v 7).
Proof.
  intros Hlo.
  assert (Hland : Z.land lo (Z.shiftl v 7) = 0).
  { apply Z.bits_inj'. intros n Hn.
    rewrite Z.land_spec, Z.bits_0.
    destruct (Z.lt_ge_cases n 7) as [Hlt|Hge].
    - rewrite (Z.shiftl_spec_low v 7 n Hlt). apply andb_false_r.
    - rewrite <- (Z.mod_small lo (2 ^ 7)) by lia.
      rewrite Z.mod_pow2_bits_high by lia. reflexivity. }
  rewrite Z.shiftl_mul_pow2 by lia.
  rewrite <- Z.lxor_lor by (rewrite <- Hland; f_equal;
                            rewrite Z.shiftl_mul_pow2 by lia; reflexivity).
  rewrite <- Z.add_nocarry_lxor
    by (rewrite <- Hland; f_equal; rewrite Z.shiftl_mul_pow2 by lia;
        reflexivity).
  lia.
Qed.

Lemma read_varint_loop_prefix (fuel : nat) (pre d : bytes) (r s o : Z) :
  0 <= o ->
  read_varint_loop fuel (pre ++ d) r s (len pre + o)
  = shift_offset (len pre) (read_varint_loop fuel d r s o).
Proof.
  revert r s o. induction fuel as [|fuel IH]; intros r s o Ho; [reflexivity|].
  cbn [read_varint_loop]. rewrite len_app.
  replace (len pre + o <? len pre + len d) with (o <? len d)
    by (destruct (o <? len d) eqn:E; symmetry;
        [apply Z.ltb_lt | apply Z.ltb_ge]; lia).
  destruct (o <? len d); [|reflexivity].
  rewrite getitem_prefix by assumption.
  destruct (getitem d o) as [b|e]; [|reflexivity].
  cbn [mbind outcome_bind].
  destruct (Z.land (byte_val b) 128 =? 0).
  - cbn [shift_offset]. by rewrite Z.add_assoc.
  - rewrite <- Z.add_assoc. apply IH. lia.
Qed.

Lemma read_varint_prefix (pre d : bytes) (o : Z) :
  0 <= o ->
  read_varint (pre ++ d) (len pre + o)
  = shift_offset (len pre) (read_varint d o).
Proof.
  intros Ho. unfold read_varint. rewrite len_app.
  replace (len pre + len d - (len pre + o)) with (len d - o) by lia.
  by apply read_varint_loop_prefix.
Qed.

(** The loop at the head of a buffer does what [leading_varint] says, adding
    the groups it reads to [r] from bit [s] on. *)
Lemma read_varint_loop_head (d : bytes) (fuel : nat) (r s : Z) :
  (length d < fuel)%nat ->
  read_varint_loop fuel d r s 0
  = match leading_varint d with
    | Some (v, n) => Return (Z.lor r (Z.shiftl v s), n)
    | None => Raise IncompleteVarint
    end.
Proof.
  revert fuel r s. induction d as [|b d IH]; intros fuel r s Hfuel.
  - destruct fuel; [simpl in Hfuel; lia | reflexivity].
  - destruct fuel as [|fuel]; [simpl in Hfuel; lia|].
    cbn [read_varint_loop leading_varint].
    rewrite len_cons.
    pose proof (len_nonneg d) as Hd.
    destruct (0 <? 1 + len d) eqn:E; [|lia].
    rewrite getitem_head. cbn [mbind outcome_bind].
    rewrite byte_high_bit, byte_low_bits.
    pose proof (byte_val_range b) as Hb.
    destruct (byte_val b <? 128) eqn:Hhigh; [reflexivity|].
    change (b :: d) with ([b] ++ d).
    change (0 + 1) with (len [b] + 0).
    rewrite read_varint_loop_prefix by lia.
    rewrite IH by (simpl in Hfuel; lia).
    destruct (leading_varint d) as [[v n]|]; [|reflexivity].
    cbn [shift_offset]. change (len [b]) with 1.
    rewrite add_lor_low by lia.
    rewrite Z.shiftl_lor, Z.shiftl_shiftl by lia.
    by rewrite Z.lor_assoc, (Z.add_comm 7 s).
Qed.

(** [read_varint] at a non-negative offset reads the varint that starts the
    rest of the buffer. *)
Lemma read_varint_spec (data : bytes) (o : Z) :
  0 <= o ->
  read_varint data o
  = match leading_varint (drop (Z.to_nat o) data) with
    | Some (v, n) => Return (v, o + n)
    | None => Raise IncompleteVarint
    end.
Proof.
  intros Ho. destruct (Z.le_gt_cases o (len data)) as [Hle|Hgt].
  - set (k := Z.to_nat o).
    assert (Hk : len (take k data) = o).
    { unfold len. rewrite length_take. unfold len in Hle. lia. }
    rewrite <- (take_drop k data) at 1.
    rewrite <- Hk at 1. rewrite <- (Z.add_0_r (len (take k data))).
    rewrite read_varint_prefix by lia.
    unfold read_varint. rewrite read_varint_loop_head by (unfold len; lia).
    destruct (leading_varint (drop k data)) as [[v n]|]; [|reflexivity].
    cbn [shift_offset]. by rewrite Z.lor_0_l, Z.shiftl_0_r, Hk.
  - rewrite drop_ge by (unfold len in Hgt; lia).
    unfold read_varint. cbn [read_varint_loop leading_varint].
    destruct (o <? len data) eqn:E; [lia|reflexivity].
Qed.

Lemma leading_varint_bounds (d : bytes) (v n : Z) :
  leading_varint d = Some (v, n) -> 0 <= v /\ 1 <= n <= len d.
Proof.
  revert v n. induction d as [|b d IH]; intros v n H; [discriminate|].
  cbn [leading_varint] in H. rewrite len_cons.
  pose proof (byte_val_range b) as Hb. pose proof (len_nonneg d) as Hd.
  destruct (byte_val b <? 128) eqn:E.
  - injection H as <- <-. lia.
  - destruct (leading_varint d) as [[v' n']|]; [|discriminate].
    injection H as <- <-. destruct (IH v' n' eq_refl) as [? ?]. lia.
Qed.

Lemma varint_value_leading (bs post : bytes) (v : Z) :
  varint_value bs = Some v -> leading_varint (bs ++ post) = Some (v, len bs).
Proof.
  revert v. induction bs as [|b bs IH]; intros v H; [discriminate|].
  cbn [varint_value] in H. cbn [app leading_varint].
  destruct (byte_val b <? 128).
  - destruct bs; [|discriminate]. by injection H as <-.
  - destruct (varint_value bs) as [v'|]; [|discriminate].
    injection H as <-. rewrite (IH v' eq_refl), len_cons. reflexivity.
Qed.

Lemma leading_varint_value (d : bytes) (v n : Z) :
  leading_varint d = Some (v, n) ->
  varint_value (take (Z.to_nat n) d) = Some v.
Proof.
  revert v n. induction d as [|b d IH]; intros v n H; [discriminate|].
  cbn [leading_varint] in H.
  destruct (byte_val b <? 128) eqn:E.
  - injection H as <- <-. change (Z.to_nat 1) with 1%nat.
    cbn [take varint_value]. by rewrite E, take_0.
  - destruct (leading_varint d) as [[v' n']|] eqn:L; [|discriminate].
    injection H as <- <-.
    destruct (leading_varint_bounds _ _ _ L) as [_ Hn'].
    replace (Z.to_nat (1 + n')) with (S (Z.to_nat n')) by lia.
    cbn [take varint_value]. by rewrite E, (IH v' n' eq_refl).
Qed.

Lemma varint_value_nonneg (bs : bytes) (v : Z) :
  varint_value bs = Some v -> 0 <= v.
Proof.
  intros H. apply (varint_value_leading bs []) in H.
  by apply leading_varint_bounds in H as [? _].
Qed.

Lemma varint_value_nonempty (bs : bytes) (v : Z) :
  varint_value bs = Some v -> 1 <= len bs.
Proof.
  intros H. apply (varint_value_leading bs []) in H.
  apply leading_varint_bounds in H as [_ H]. lia.
Qed.

(** A varint written at the end of [pre] is read back whole, whatever
    follows. *)
Lemma read_varint_at (pre bs post : bytes) (v : Z) :
  varint_value bs = Some v ->
  read_varint (pre ++ bs ++ post) (len pre) = Return (v, len pre + len bs).
Proof.
  intros H. rewrite <- (Z.add_0_r (len pre)) at 1.
  rewrite read_varint_prefix, read_varint_spec by lia.
  change (Z.to_nat 0) with 0%nat. rewrite drop_0.
  by rewrite (varint_value_leading _ _ _ H).
Qed.

(** The two ways [read_varint] can end at a non-negative offset. *)
Lemma read_varint_cases (data : bytes) (o : Z) :
  0 <= o ->
  (exists v p, read_varint data o = Return (v, p)
               /\ 0 <= v /\ o < p <= len data)
  \/ read_varint data o = Raise IncompleteVarint.
Proof.
  intros Ho. rewrite read_varint_spec by assumption.
  destruct (leading_varint (drop (Z.to_nat o) data)) as [[v n]|] eqn:L;
    [left|by right].
  exists v, (o + n). split; [reflexivity|].
  apply leading_varint_bounds in L as [Hv Hn].
  unfold len in *. rewrite length_drop in Hn. lia.
Qed.

(** ** The Field Skipper *)

Lemma skip_field_cases (data : bytes) (o wire_type : Z) :
  0 <= o ->
  (exists p, skip_field data o wire_type = Return p /\ o <= p)
  \/ skip_field data o wire_type = Raise IncompleteVarint
  \/ skip_field data o wire_type = Raise (UnknownWireType wire_type).
Proof.
  intros Ho. unfold skip_field.
  destruct (read_varint_cases data o Ho) as [(v & p & -> & Hv & Hp)| ->];
    cbn [mbind outcome_bind];
    repeat match goal with
           | |- context [if ?c then _ else _] => destruct c
           end;
    try (left; eexists; split; [reflexivity|lia]); auto.
Qed.

(** ** One valid field inside a buffer *)

Section OneField.

Variables (pre post : bytes) (f : field).
Hypothesis Hvalid : valid_field f = true.

Let data := pre ++ field_bytes f ++ post.

Lemma valid_field_tag : varint_value (tag_raw f) = Some (tag_value f).
Proof.
  unfold valid_field in Hvalid.
  apply andb_prop in Hvalid as [H1 _]. apply andb_prop in H1 as [H1 _].
  apply bool_decide_eq_true in H1 as [tag Htag].
  unfold tag_value. by rewrite Htag.
Qed.

Lemma valid_field_wire_type :
  Z.land (tag_value f) 7 = wire_type_of (body f).
Proof.
  unfold valid_field in Hvalid.
  apply andb_prop in Hvalid as [H1 _]. apply andb_prop in H1 as [_ H1].
  by apply Z.eqb_eq.
Qed.

Lemma valid_field_payload : valid_payload (body f) = true.
Proof. unfold valid_field in Hvalid. by apply andb_prop in Hvalid as [_ ?]. Qed.

Lemma field_bytes_nonempty : 1 <= len (tag_raw f) <= len (field_bytes f).
Proof.
  pose proof (varint_value_nonempty _ _ valid_field_tag).
  unfold field_bytes. rewrite len_app.
  pose proof (len_nonneg (payload_bytes (body f))). lia.
Qed.

Lemma field_in_buffer : (len pre <? len data) = true.
Proof.
  apply Z.ltb_lt. unfold data. rewrite !len_app.
  pose proof field_bytes_nonempty. pose proof (len_nonneg post). lia.
Qed.

Lemma read_tag :
  read_varint data (len pre)
  = Return (tag_value f, len pre + len (tag_raw f)).
Proof.
  unfold data, field_bytes. rewrite <- app_assoc.
  apply read_varint_at, valid_field_tag.
Qed.

Lemma read_length (length_raw value : bytes) :
  body f = LengthDelimited length_raw value ->
  read_varint data (len pre + len (tag_raw f))
  = Return (len value, len pre + len (tag_raw f) + len length_raw).
Proof.
  intros Hbody. pose proof valid_field_payload as Hp.
  rewrite Hbody in Hp. cbn in Hp. apply bool_decide_eq_true in Hp.
  unfold data, field_bytes. rewrite Hbody. cbn [payload_bytes].
  rewrite <- len_app, <- !app_assoc, (app_assoc pre).
  by apply read_varint_at.
Qed.

Lemma slice_value (length_raw value : bytes) :
  body f = LengthDelimited length_raw value ->
  slice data (len pre + len (tag_raw f) + len length_raw)
             (len pre + len (tag_raw f) + len length_raw + len value)
  = value.
Proof.
  intros Hbody. unfold data, field_bytes. rewrite Hbody.
  cbn [payload_bytes].
  rewrite <- (len_app pre), <- (len_app (pre ++ tag_raw f)).
  replace (pre ++ (tag_raw f ++ length_raw ++ value) ++ post)
    with (((pre ++ tag_raw f) ++ length_raw) ++ value ++ post)
    by (by rewrite <- !app_assoc).
  apply slice_exact.
Qed.

Lemma end_of_value (length_raw value : bytes) :
  body f = LengthDelimited length_raw value ->
  len pre + len (tag_raw f) + len length_raw + len value
  = len (pre ++ field_bytes f).
Proof.
  intros Hbody. unfold field_bytes. rewrite Hbody. cbn [payload_bytes].
  rewrite !len_app. lia.
Qed.

Lemma read_value (raw : bytes) :
  body f = Varint raw ->
  exists v, varint_value raw = Some v
            /\ read_varint data (len pre + len (tag_raw f))
               = Return (v, len (pre ++ field_bytes f)).
Proof.
  intros Hbody. pose proof valid_field_payload as Hp.
  rewrite Hbody in Hp. cbn in Hp.
  apply bool_decide_eq_true in Hp as [v Hv]. exists v. split; [done|].
  unfold data, field_bytes. rewrite Hbody. cbn [payload_bytes].
  rewrite <- len_app, <- !app_assoc, (app_assoc pre).
  rewrite (read_varint_at _ _ _ _ Hv). by rewrite !len_app, !Z.add_assoc.
Qed.

Lemma skip_valid_field :
  skip_field data (len pre + len (tag_raw f)) (wire_type_of (body f))
  = Return (len (pre ++ field_bytes f)).
Proof.
  pose proof valid_field_payload as Hp.
  destruct (body f) as [raw|raw|length_raw value|raw] eqn:Hbody;
    unfold skip_field; cbn [wire_type_of Z.eqb Pos.eqb].
  - destruct (read_value raw Hbody) as (v & _ & ->). reflexivity.
  - cbn in Hp. apply bool_decide_eq_true in Hp.
    unfold field_bytes. rewrite Hbody. cbn [payload_bytes].
    rewrite !len_app. f_equal. unfold len. rewrite Hp. lia.
  - rewrite (read_length _ _ Hbody). cbn [mbind outcome_bind].
    by rewrite (end_of_value _ _ Hbody).
  - cbn in Hp. apply bool_decide_eq_true in Hp.
    unfold field_bytes. rewrite Hbody. cbn [payload_bytes].
    rewrite !len_app. f_equal. unfold len. rewrite Hp. lia.
Qed.

End OneField.

(** ** Scanning a sequence of valid fields *)

Lemma serialize_cons (f : field) (fs : list field) :
  serialize (f :: fs) = field_bytes f ++ serialize fs.
Proof. reflexivity. Qed.

Lemma serialize_app (fs1 fs2 : list field) :
  serialize (fs1 ++ fs2) = serialize fs1 ++ serialize fs2.
Proof. unfold serialize. by rewrite map_app, concat_app. Qed.

Lemma forallb_cons_true {A} (p : A -> bool) (x : A) (l : list A) :
  forallb p (x :: l) = true -> p x = true /\ forallb p l = true.
Proof. cbn. apply andb_prop. Qed.

(** A valid field takes at least one byte, so a buffer has no more fields
    than bytes. *)
Lemma fields_le_bytes (fs : list field) :
  forallb valid_field fs = true -> (length fs <= length (serialize fs))%nat.
Proof.
  induction fs as [|f fs IH]; intros H; [cbn; lia|].
  apply forallb_cons_true in H as [Hf Hfs].
  rewrite serialize_cons, length_app. cbn [length].
  pose proof (field_bytes_nonempty f Hf) as Hne. unfold len in Hne.
  specialize (IH Hfs). lia.
Qed.

(** The scan of [find_field] over valid fields: it stops at the first
    length-delimited field with the target number, and otherwise goes on
    behind the fields. *)
Lemma find_field_loop_scan (target : Z) (fs : list field) :
  forall (pre post : bytes) (fuel : nat),
    forallb valid_field fs = true ->
    (length fs <= fuel)%nat ->
    find_field_loop fuel (pre ++ serialize fs ++ post) target (len pre)
    = match first_length_delimited target fs with
      | Some value => Return (Some value)
      | None =>
        find_field_loop (fuel - length fs) (pre ++ serialize fs ++ post)
                        target (len (pre ++ serialize fs))
      end.
Proof.
  induction fs as [|f fs IH]; intros pre post fuel Hfs Hfuel.
  - cbn [first_length_delimited length serialize map concat].
    by rewrite Nat.sub_0_r, app_nil_r.
  - apply forallb_cons_true in Hfs as [Hf Hfs].
    destruct fuel as [|fuel]; [cbn in Hfuel; lia|].
    rewrite serialize_cons, <- app_assoc.
    cbn [find_field_loop first_length_delimited length Nat.sub].
    rewrite (field_in_buffer pre _ f Hf), (read_tag pre _ f Hf).
    rewrite (valid_field_wire_type f Hf).
    fold (field_number f).
    assert (Hnext :
      find_field_loop fuel (pre ++ field_bytes f ++ serialize fs ++ post)
                      target (len (pre ++ field_bytes f))
      = match first_length_delimited target fs with
        | Some value => Return (Some value)
        | None =>
          find_field_loop (fuel - length fs)
            (pre ++ field_bytes f ++ serialize fs ++ post) target
            (len (pre ++ field_bytes f ++ serialize fs))
        end).
    { rewrite (app_assoc pre (field_bytes f) (serialize fs ++ post)).
      rewrite (IH (pre ++ field_bytes f) post fuel Hfs)
        by (cbn in Hfuel; lia).
      by rewrite <- !app_assoc. }
    pose proof (skip_valid_field pre (serialize fs ++ post) f Hf) as Hskip.
    destruct (body f) as [raw|raw|length_raw value|raw] eqn:Hbody;
      cbn [wire_type_of Z.eqb Pos.eqb andb] in *;
      rewrite ?andb_false_r;
      try (rewrite Hskip; cbn [mbind outcome_bind]; exact Hnext).
    destruct (field_number f =? target); cbn [andb].
    + rewrite (read_length pre _ f Hf _ _ Hbody). cbn [mbind outcome_bind].
      by rewrite (slice_value pre _ f _ _ Hbody).
    + rewrite Hskip. cbn [mbind outcome_bind]. exact Hnext.
Qed.

(** On a well-formed buffer [find_field] answers with the first
    length-delimited field of the target number; bytes that follow a match
    play no part. *)
Lemma find_field_serialize (target : Z) (fs : list field) :
  forallb valid_field fs = true ->
  find_field (serialize fs) target
  = Return (first_length_delimited target fs).
Proof.
  intros Hfs. unfold find_field.
  pose proof (fields_le_bytes fs Hfs) as Hle.
  rewrite <- (app_nil_r (serialize fs)) at 2.
  change (find_field_loop (S (length (serialize fs))) (serialize fs ++ [])
                          target 0)
    with (find_field_loop (S (length (serialize fs)))
                          ([] ++ serialize fs ++ []) target (len [])).
  rewrite find_field_loop_scan by (assumption || lia).
  destruct (first_length_delimited target fs); [reflexivity|].
  replace (S (length (serialize fs)) - length fs)%nat
    with (S (length (serialize fs) - length fs)) by lia.
  cbn [find_field_loop app]. rewrite app_nil_r.
  by rewrite Z.ltb_irrefl.
Qed.

Lemma find_field_match_then_anything (target : Z) (fs : list field)
      (value post : bytes) :
  forallb valid_field fs = true ->
  first_length_delimited target fs = Some value ->
  find_field (serialize fs ++ post) target = Return (Some value).
Proof.
  intros Hfs Hfirst. unfold find_field.
  pose proof (fields_le_bytes fs Hfs) as Hle.
  change (find_field_loop (S (length (serialize fs ++ post)))
                          (serialize fs ++ post) target 0)
    with (find_field_loop (S (length (serialize fs ++ post)))
                          ([] ++ serialize fs ++ post) target (len [])).
  rewrite find_field_loop_scan by (rewrite ?length_app; assumption || lia).
  by rewrite Hfirst.
Qed.

(** The scan of [parse_timestamp]: it stops at the first varint field
    numbered 1. *)
Lemma parse_timestamp_loop_scan (fs : list field) :
  forall (pre post : bytes) (fuel : nat),
    forallb valid_field fs = true ->
    (length fs <= fuel)%nat ->
    parse_timestamp_loop fuel (pre ++ serialize fs ++ post) (len pre)
    = match first_varint 1 fs with
      | Some seconds => Return (Some seconds)
      | None =>
        parse_timestamp_loop (fuel - length fs) (pre ++ serialize fs ++ post)
                             (len (pre ++ serialize fs))
      end.
Proof.
  induction fs as [|f fs IH]; intros pre post fuel Hfs Hfuel.
  - cbn [first_varint length serialize map concat].
    by rewrite Nat.sub_0_r, app_nil_r.
  - apply forallb_cons_true in Hfs as [Hf Hfs].
    destruct fuel as [|fuel]; [cbn in Hfuel; lia|].
    rewrite serialize_cons, <- app_assoc.
    cbn [parse_timestamp_loop first_varint length Nat.sub].
    rewrite (field_in_buffer pre _ f Hf), (read_tag pre _ f Hf).
    cbn [mbind outcome_bind].
    rewrite (valid_field_wire_type f Hf).
    fold (field_number f).
    assert (Hnext :
      parse_timestamp_loop fuel (pre ++ field_bytes f ++ serialize fs ++ post)
                           (len (pre ++ field_bytes f))
      = match first_varint 1 fs with
        | Some seconds => Return (Some seconds)
        | None =>
          parse_timestamp_loop (fuel - length fs)
            (pre ++ field_bytes f ++ serialize fs ++ post)
            (len (pre ++ field_bytes f ++ serialize fs))
        end).
    { rewrite (app_assoc pre (field_bytes f) (serialize fs ++ post)).
      rewrite (IH (pre ++ field_bytes f) post fuel Hfs)
        by (cbn in Hfuel; lia).
      by rewrite <- !app_assoc. }
    pose proof (skip_valid_field pre (serialize fs ++ post) f Hf) as Hskip.
    destruct (body f) as [raw|raw|length_raw value|raw] eqn:Hbody;
      cbn [wire_type_of Z.eqb Pos.eqb andb] in *;
      rewrite ?andb_false_r;
      try (rewrite Hskip; cbn [mbind outcome_bind]; exact Hnext).
    destruct (field_number f =? 1); cbn [andb].
    + destruct (read_value pre (serialize fs ++ post) f Hf raw Hbody)
        as (v & -> & ->).
      reflexivity.
    + rewrite Hskip. cbn [mbind outcome_bind]. exact Hnext.
Qed.

Lemma parse_timestamp_serialize (fs : list field) :
  forallb valid_field fs = true ->
  parse_timestamp (serialize fs) = Return (first_varint 1 fs).
Proof.
  intros Hfs. unfold parse_timestamp.
  pose proof (fields_le_bytes fs Hfs) as Hle.
  rewrite <- (app_nil_r (serialize fs)) at 2.
  change (parse_timestamp_loop (S (length (serialize fs)))
                               (serialize fs ++ []) 0)
    with (parse_timestamp_loop (S (length (serialize fs)))
                               ([] ++ serialize fs ++ []) (len [])).
  rewrite parse_timestamp_loop_scan by (assumption || lia).
  destruct (first_varint 1 fs); [reflexivity|].
  replace (S (length (serialize fs)) - length fs)%nat
    with (S (length (serialize fs) - length fs)) by lia.
  cbn [parse_timestamp_loop app]. rewrite app_nil_r.
  by rewrite Z.ltb_irrefl.
Qed.

(** The chain of tests on the field number in [parse_oauth_token_info] is
    the table of keys and values of the specification. *)
Lemma store_field_dispatch (info : gmap string pyval) (f : field)
      (length_raw value : bytes) :
  body f = LengthDelimited length_raw value ->
  (if field_number f =? 1 then
     s ← decode_utf8 value; Return (<["access_token" := PyStr s]> info)
   else if field_number f =? 2 then
     s ← decode_utf8 value; Return (<["token_type" := PyStr s]> info)
   else if field_number f =? 3 then
     s ← decode_utf8 value; Return (<["refresh_token" := PyStr s]> info)
   else if field_number f =? 4 then
     t ← parse_timestamp value;
     Return (<["expiry_seconds" := of_optional_int t]> info)
   else Return info)
  = store_field info f.
Proof.
  intros Hbody. unfold store_field, record_key, record_value.
  rewrite Hbody. generalize (field_number f) as n. intros n.
  destruct (Z.eqb_spec n 1) as [->|_];
    [cbn; by destruct (decode_utf8 value)|].
  destruct (Z.eqb_spec n 2) as [->|_];
    [cbn; by destruct (decode_utf8 value)|].
  destruct (Z.eqb_spec n 3) as [->|_];
    [cbn; by destruct (decode_utf8 value)|].
  destruct (Z.eqb_spec n 4) as [->|_]; [|reflexivity].
  cbn [mbind outcome_bind]. by destruct (parse_timestamp value).
Qed.

(** The scan of [parse_oauth_token_info]: the fields are stored one after
    the other, in buffer order. *)
Lemma parse_oauth_token_info_loop_scan (fs : list field) :
  forall (pre post : bytes) (fuel : nat) (info : gmap string pyval),
    forallb valid_field fs = true ->
    (length fs <= fuel)%nat ->
    parse_oauth_token_info_loop fuel (pre ++ serialize fs ++ post) info
                                (len pre)
    = (info' ← assemble fs info;
       parse_oauth_token_info_loop (fuel - length fs)
         (pre ++ serialize fs ++ post) info' (len (pre ++ serialize fs))).
Proof.
  induction fs as [|f fs IH]; intros pre post fuel info Hfs Hfuel.
  - cbn [assemble length serialize map concat mbind outcome_bind].
    by rewrite Nat.sub_0_r, app_nil_r.
  - apply forallb_cons_true in Hfs as [Hf Hfs].
    destruct fuel as [|fuel]; [cbn in Hfuel; lia|].
    rewrite serialize_cons, <- app_assoc.
    cbn [parse_oauth_token_info_loop assemble length Nat.sub].
    rewrite (field_in_buffer pre _ f Hf), (read_tag pre _ f Hf).
    cbn [mbind outcome_bind].
    rewrite (valid_field_wire_type f Hf).
    fold (field_number f).
    assert (Hnext : forall info0,
      parse_oauth_token_info_loop fuel
        (pre ++ field_bytes f ++ serialize fs ++ post) info0
        (len (pre ++ field_bytes f))
      = (info' ← assemble fs info0;
         parse_oauth_token_info_loop (fuel - length fs)
           (pre ++ field_bytes f ++ serialize fs ++ post) info'
           (len (pre ++ field_bytes f ++ serialize fs)))).
    { intros info0.
      rewrite (app_assoc pre (field_bytes f) (serialize fs ++ post)).
      rewrite (IH (pre ++ field_bytes f) post fuel info0 Hfs)
        by (cbn in Hfuel; lia).
      by rewrite <- !app_assoc. }
    pose proof (skip_valid_field pre (serialize fs ++ post) f Hf) as Hskip.
    destruct (body f) as [raw|raw|length_raw value|raw] eqn:Hbody;
      cbn [wire_type_of Z.eqb Pos.eqb] in *;
      try (rewrite Hskip; unfold store_field; rewrite Hbody;
           cbn [mbind outcome_bind]; apply Hnext).
    rewrite (read_length pre _ f Hf _ _ Hbody). cbn [mbind outcome_bind].
    rewrite (slice_value pre _ f _ _ Hbody).
    rewrite (store_field_dispatch info f _ _ Hbody).
    rewrite (end_of_value pre f _ _ Hbody).
    destruct (store_field info f) as [info1|e]; [|reflexivity].
    cbn [mbind outcome_bind]. apply Hnext.
Qed.

Lemma parse_oauth_token_info_serialize (fs : list field) :
  forallb valid_field fs = true ->
  parse_oauth_token_info (serialize fs) = assemble fs ∅.
Proof.
  intros Hfs. unfold parse_oauth_token_info.
  pose proof (fields_le_bytes fs Hfs) as Hle.
  rewrite <- (app_nil_r (serialize fs)) at 2.
  change (parse_oauth_token_info_loop (S (length (serialize fs)))
                                      (serialize fs ++ []) ∅ 0)
    with (parse_oauth_token_info_loop (S (length (serialize fs)))
                                      ([] ++ serialize fs ++ []) ∅ (len [])).
  rewrite parse_oauth_token_info_loop_scan by (assumption || lia).
  destruct (assemble fs ∅) as [info|e]; [|reflexivity].
  cbn [mbind outcome_bind].
  replace (S (length (serialize fs)) - length fs)%nat
    with (S (length (serialize fs) - length fs)) by lia.
  cbn [parse_oauth_token_info_loop app]. rewrite app_nil_r.
  by rewrite Z.ltb_irrefl.
Qed.

(** ** What the decoder can raise, on any buffer

    Whatever the bytes, the only exceptions are the [ValueError]s of the
    decoder: no index is ever out of range, and the loops end within their
    budget. *)

Lemma read_varint_raises (data : bytes) (o : Z) (e : exn) :
  0 <= o -> read_varint data o = Raise e -> e = IncompleteVarint.
Proof.
  intros Ho H.
  destruct (read_varint_cases data o Ho) as [(v & p & Hr & _)|Hr];
    rewrite Hr in H; congruence.
Qed.

Lemma skip_field_raises (data : bytes) (o wire_type : Z) (e : exn) :
  0 <= o -> skip_field data o wire_type = Raise e -> is_ValueError e = true.
Proof.
  intros Ho H.
  destruct (skip_field_cases data o wire_type Ho) as [(p & Hr & _)|[Hr|Hr]];
    rewrite Hr in H; inversion H; reflexivity.
Qed.

Lemma find_field_loop_raises (data : bytes) (target : Z) (e : exn) :
  forall (fuel : nat) (o : Z),
    0 <= o -> (Z.to_nat (len data - o) < fuel)%nat ->
    find_field_loop fuel data target o = Raise e -> is_ValueError e = true.
Proof.
  induction fuel as [|fuel IH]; intros o Ho Hfuel H; [lia|].
  cbn [find_field_loop] in H.
  destruct (o <? len data) eqn:Hlt; [|discriminate].
  apply Z.ltb_lt in Hlt.
  destruct (read_varint_cases data o Ho) as [(tag & p & Hr & _ & Hp)|Hr];
    rewrite Hr in H; [|discriminate].
  destruct ((Z.shiftr tag 3 =? target) && (Z.land tag 7 =? 2)).
  - destruct (read_varint data p) as [[length content_offset]|e'] eqn:Hr';
      [discriminate|].
    cbn in H. injection H as <-.
    by rewrite (read_varint_raises data p e') by (lia || assumption).
  - destruct (skip_field data p (Z.land tag 7)) as [p'|e'] eqn:Hs.
    + cbn [mbind outcome_bind] in H.
      destruct (skip_field_cases data p (Z.land tag 7)) as [(q & Hq & Hle)|[Hq|Hq]];
        [lia| |congruence|congruence].
      rewrite Hs in Hq. injection Hq as ->.
      apply (IH q); [lia|lia|assumption].
    + cbn in H. injection H as <-.
      apply (skip_field_raises data p (Z.land tag 7)); [lia|assumption].
Qed.

Lemma find_field_raises (data : bytes) (target : Z) (e : exn) :
  find_field data target = Raise e -> is_ValueError e = true.
Proof.
  apply find_field_loop_raises; [lia|]. unfold len. lia.
Qed.

Lemma parse_timestamp_loop_raises (data : bytes) (e : exn) :
  forall (fuel : nat) (o : Z),
    0 <= o -> (Z.to_nat (len data - o) < fuel)%nat ->
    parse_timestamp_loop fuel data o = Raise e -> is_ValueError e = true.
Proof.
  induction fuel as [|fuel IH]; intros o Ho Hfuel H; [lia|].
  cbn [parse_timestamp_loop] in H.
  destruct (o <? len data) eqn:Hlt; [|discriminate].
  apply Z.ltb_lt in Hlt.
  destruct (read_varint_cases data o Ho) as [(tag & p & Hr & _ & Hp)|Hr];
    rewrite Hr in H; [|by injection H as <-].
  cbn [mbind outcome_bind] in H.
  destruct ((Z.shiftr tag 3 =? 1) && (Z.land tag 7 =? 0)).
  - destruct (read_varint data p) as [[seconds q]|e'] eqn:Hr';
      [discriminate|].
    cbn in H. injection H as <-.
    by rewrite (read_varint_raises data p e') by (lia || assumption).
  - destruct (skip_field data p (Z.land tag 7)) as [p'|e'] eqn:Hs.
    + cbn [mbind outcome_bind] in H.
      destruct (skip_field_cases data p (Z.land tag 7)) as [(q & Hq & Hle)|[Hq|Hq]];
        [lia| |congruence|congruence].
      rewrite Hs in Hq. injection Hq as ->.
      apply (IH q); [lia|lia|assumption].
    + cbn in H. injection H as <-.
      apply (skip_field_raises data p (Z.land tag 7)); [lia|assumption].
Qed.

Lemma parse_timestamp_raises (data : bytes) (e : exn) :
  parse_timestamp data = Raise e -> is_ValueError e = true.
Proof.
  apply parse_timestamp_loop_raises; [lia|]. unfold len. lia.
Qed.

Lemma decode_utf8_raises (value : bytes) (e : exn) :
  decode_utf8 value = Raise e -> e = UnicodeDecodeError.
Proof.
  unfold decode_utf8. destruct (utf8_decode value); congruence.
Qed.

Lemma parse_oauth_token_info_loop_raises (data : bytes) (e : exn) :
  forall (fuel : nat) (info : gmap string pyval) (o : Z),
    0 <= o -> (Z.to_nat (len data - o) < fuel)%nat ->
    parse_oauth_token_info_loop fuel data info o = Raise e ->
    is_ValueError e = true.
Proof.
  induction fuel as [|fuel IH]; intros info o Ho Hfuel H; [lia|].
  cbn [parse_oauth_token_info_loop] in H.
  destruct (o <? len data) eqn:Hlt; [|discriminate].
  apply Z.ltb_lt in Hlt.
  destruct (read_varint_cases data o Ho) as [(tag & p & Hr & _ & Hp)|Hr];
    rewrite Hr in H; [|by injection H as <-].
  cbn [mbind outcome_bind] in H.
  destruct (Z.land tag 7 =? 2).
  - destruct (read_varint_cases data p) as [(n & q & Hr' & Hn & Hq)|Hr'];
      [lia| |]; rewrite Hr' in H; [|by injection H as <-].
    cbn [mbind outcome_bind] in H.
    match type of H with
    | mbind _ ?m = _ => destruct m as [info1|e1] eqn:Hstore
    end.
    + cbn [mbind outcome_bind] in H. apply (IH info1 (q + n)); [lia|lia|done].
    + cbn in H. injection H as <-.
      repeat match type of Hstore with
             | (if ?c then _ else _) = _ => destruct c
             end;
        try discriminate;
        match type of Hstore with
        | mbind _ ?m = _ => destruct m as [x|e2] eqn:Hm
        end;
        try discriminate; cbn in Hstore; injection Hstore as <-;
        first [ by rewrite (decode_utf8_raises _ _ Hm)
              | by apply (parse_timestamp_raises _ _ Hm) ].
  - destruct (skip_field data p (Z.land tag 7)) as [p'|e'] eqn:Hs.
    + cbn [mbind outcome_bind] in H.
      destruct (skip_field_cases data p (Z.land tag 7)) as [(q & Hq & Hle)|[Hq|Hq]];
        [lia| |congruence|congruence].
      rewrite Hs in Hq. injection Hq as ->.
      apply (IH info q); [lia|lia|assumption].
    + cbn in H. injection H as <-.
      apply (skip_field_raises data p (Z.land tag 7)); [lia|assumption].
Qed.

Lemma parse_oauth_token_info_raises (data : bytes) (e : exn) :
  parse_oauth_token_info data = Raise e -> is_ValueError e = true.
Proof.
  apply parse_oauth_token_info_loop_raises; [lia|]. unfold len. lia.
Qed.

(** ** Encoding and decoding integers *)

Lemma encode_varint_bytes_value (n : nat) (v : Z) :
  0 <= v < 128 ^ Z.of_nat (S n) ->
  varint_value (encode_varint_bytes (S n) v) = Some v.
Proof.
  revert v. induction n as [|n IH]; intros v Hv.
  - cbn [encode_varint_bytes]. change (128 ^ Z.of_nat 1) with 128 in Hv.
    destruct (v <? 128) eqn:E; [|lia].
    cbn [varint_value]. rewrite byte_val_of_Z by lia. by rewrite E.
  - remember (S n) as m eqn:Hm. cbn [encode_varint_bytes].
    destruct (v <? 128) eqn:E.
    + cbn [varint_value]. rewrite byte_val_of_Z by lia. by rewrite E.
    + apply Z.ltb_ge in E.
      pose proof (Z.mod_pos_bound v 128 ltac:(lia)) as Hmod.
      cbn [varint_value]. rewrite byte_val_of_Z by lia.
      destruct (v mod 128 + 128 <? 128) eqn:E'; [lia|].
      rewrite IH.
      * f_equal. pose proof (Z.div_mod v 128 ltac:(lia)). lia.
      * subst m. split; [apply Z.div_pos; lia|].
        apply Z.div_lt_upper_bound; [lia|].
        replace (Z.of_nat (S (S n))) with (1 + Z.of_nat (S n)) in Hv by lia.
        rewrite Z.pow_add_r in Hv by lia. lia.
Qed.

Lemma encode_varint_value (v : Z) :
  0 <= v < 2 ^ 64 -> varint_value (encode_varint v) = Some v.
Proof.
  intros Hv. apply encode_varint_bytes_value.
  assert (2 ^ 64 <= 128 ^ Z.of_nat 10) by (vm_compute; discriminate). lia.
Qed.

(** C4. Round trip: a non-negative integer below [2 ^ 64], written in
    base 128 with continuation bits (seven payload bits per byte,
    least-significant group first, the high bit set on all bytes but the
    last), is read back by [read_varint] at the offset where the encoding
    starts, together with the offset of the first byte after it; this holds
    for the encoding alone and for the encoding anywhere inside a buffer. *)
Theorem read_varint_encode_varint (v : Z) (pre post : bytes) :
  0 <= v < 2 ^ 64 ->
  read_varint (encode_varint v) 0 = Return (v, len (encode_varint v))
  /\ read_varint (pre ++ encode_varint v ++ post) (len pre)
     = Return (v, len pre + len (encode_varint v)).
Proof.
  intros Hv. pose proof (encode_varint_value v Hv) as Hval. split.
  - pose proof (read_varint_at [] (encode_varint v) [] v Hval) as H.
    by rewrite app_nil_r in H.
  - by apply read_varint_at.
Qed.

Lemma read_varint_encode_varint_witness :
  read_varint (encode_varint 1700000000) 0
  = Return (1700000000, len (encode_varint 1700000000))
  /\ read_varint ([x08] ++ encode_varint 1700000000 ++ [x10; x01]) (len [x08])
     = Return (1700000000, len [x08] + len (encode_varint 1700000000)).
Proof.
  apply (read_varint_encode_varint 1700000000 [x08] [x10; x01]).
  split; [discriminate | reflexivity].
Defined.

(** ** Failures of the Variable-Length Integer Decoder *)

Lemma leading_varint_all_continue (d : bytes) :
  forallb continues d = true -> leading_varint d = None.
Proof.
  induction d as [|b d IH]; intros H; [reflexivity|].
  apply forallb_cons_true in H as [Hb Hd]. cbn [leading_varint].
  unfold continues in Hb. apply Z.leb_le in Hb.
  destruct (byte_val b <? 128) eqn:E; [lia|]. by rewrite (IH Hd).
Qed.

(** C5, as the code has it.  [read_varint] has one way to fail,
    [ValueError("Incomplete varint")]: it is what an offset at or beyond the
    end of the buffer gives, and also what a varint gives whose bytes all
    have the continuation bit set up to the end of the buffer. *)
Theorem read_varint_incomplete (data : bytes) (offset : Z) :
  (len data <= offset -> read_varint data offset = Raise IncompleteVarint)
  /\ (0 <= offset ->
      forallb continues (drop (Z.to_nat offset) data) = true ->
      read_varint data offset = Raise IncompleteVarint).
Proof.
  assert (Hrun : 0 <= offset ->
                 forallb continues (drop (Z.to_nat offset) data) = true ->
                 read_varint data offset = Raise IncompleteVarint).
  { intros Ho Hall. rewrite read_varint_spec by assumption.
    by rewrite leading_varint_all_continue. }
  split; [|exact Hrun].
  intros Hge. pose proof (len_nonneg data). apply Hrun; [lia|].
  rewrite drop_ge by (unfold len in Hge; lia). reflexivity.
Qed.

Lemma read_varint_incomplete_witness :
  read_varint [x01; x02] 5 = Raise IncompleteVarint
  /\ read_varint [x01; x80; xff] 1 = Raise IncompleteVarint.
Proof.
  split.
  - apply (proj1 (read_varint_incomplete [x01; x02] 5)). discriminate.
  - apply (proj2 (read_varint_incomplete [x01; x80; xff] 1));
      [discriminate | reflexivity].
Defined.

(** C5, counterexample: an offset at the end of the buffer and a varint cut
    by the end of the buffer raise the same exception; there is no error
    kind of its own for the first. *)
Lemma read_varint_no_out_of_bounds_kind :
  len [x01] <= 1
  /\ read_varint [x01] 1 = Raise IncompleteVarint
  /\ read_varint [x80] 0 = Raise IncompleteVarint
  /\ read_varint [x01] 1 = read_varint [x80] 0.
Proof. repeat split; (discriminate || reflexivity). Qed.

(** ** How far the Variable-Length Integer Decoder reads *)

Lemma slice_take_drop (data : bytes) (lo hi : Z) :
  0 <= lo <= hi -> hi <= len data ->
  slice data lo hi = take (Z.to_nat (hi - lo)) (drop (Z.to_nat lo) data).
Proof.
  intros Hlo Hhi. unfold slice, clamp.
  destruct (lo <? 0) eqn:E1; [lia|]. destruct (hi <? 0) eqn:E2; [lia|].
  by rewrite !Z.min_l by lia.
Qed.

Lemma varint_value_zeros (n : nat) :
  varint_value (replicate n x80 ++ [x00]) = Some 0.
Proof.
  induction n as [|n IH]; [reflexivity|].
  cbn [replicate app]. change (varint_value (x80 :: ?l))
    with (match varint_value l with
          | Some v => Some (128 - 128 + 128 * v)
          | None => None
          end).
  by rewrite IH.
Qed.

(** C8, as the code has it.  [read_varint] has no bound on the bytes it
    reads: it goes on to the first byte whose high bit is clear, or to the
    end of the buffer.  When it returns, the bytes from the starting offset
    to the returned offset lie inside the buffer and are exactly one varint,
    of the returned value; and for every [n] there is a varint of [n + 1]
    bytes that it reads to the end. *)
Theorem read_varint_reads_one_varint :
  (forall (data : bytes) (offset v p : Z),
      0 <= offset ->
      read_varint data offset = Return (v, p) ->
      offset < p <= len data
      /\ varint_value (slice data offset p) = Some v)
  /\ (forall n : nat,
         read_varint (replicate n x80 ++ [x00]) 0
         = Return (0, Z.of_nat n + 1)).
Proof.
  split.
  - intros data offset v p Ho H.
    rewrite read_varint_spec in H by assumption.
    destruct (leading_varint (drop (Z.to_nat offset) data)) as [[v' n]|] eqn:L;
      [|discriminate].
    injection H as <- <-.
    pose proof (leading_varint_bounds _ _ _ L) as [_ Hn].
    unfold len in Hn. rewrite length_drop in Hn.
    assert (Hp : offset < offset + n <= len data) by (unfold len; lia).
    split; [exact Hp|].
    rewrite slice_take_drop by lia.
    replace (offset + n - offset) with n by lia.
    by apply leading_varint_value.
  - intros n.
    pose proof (read_varint_at [] (replicate n x80 ++ [x00]) [] 0
                               (varint_value_zeros n)) as H.
    rewrite app_nil_r in H. cbn [app] in H.
    change (len []) with 0 in H. rewrite H.
    rewrite len_app. change (len [x00]) with 1. unfold len. rewrite length_replicate.
    reflexivity.
Qed.

Lemma read_varint_reads_one_varint_witness :
  1 < 3 <= len [x08; xac; x02; x10]
  /\ varint_value (slice [x08; xac; x02; x10] 1 3) = Some 300.
Proof.
  apply (proj1 read_varint_reads_one_varint [x08; xac; x02; x10] 1 300 3);
    [discriminate | reflexivity].
Defined.

(** C8, counterexample: eleven bytes are read, one more than a 64-bit value
    can take. *)
Lemma read_varint_reads_eleven_bytes :
  read_varint [x80; x80; x80; x80; x80; x80; x80; x80; x80; x80; x00] 0
  = Return (0, 11).
Proof. reflexivity. Qed.

(** ** What the Field Skipper returns *)

(** C7. [skip_field] returns: for wire type 0, the offset after the varint
    at the given place; for wire type 1, the offset plus 8; for wire type 2,
    the offset after the length varint plus the length it declares, for any
    bytes whatever after the length varint; for wire type 5, the offset plus
    4; and for any other wire type it raises the unknown wire type error.
    For wire types 0 and 2 it does what [read_varint] does at the offset,
    and fails when that fails. *)
Theorem skip_field_by_wire_type (data : bytes) (offset wire_type : Z) :
  skip_field data offset 0
  = ('(_, new_offset) ← read_varint data offset; Return new_offset)
  /\ skip_field data offset 2
     = ('(length, content_offset) ← read_varint data offset;
        Return (content_offset + length))
  /\ (forall (pre bs post : bytes) (v : Z),
      varint_value bs = Some v ->
      skip_field (pre ++ bs ++ post) (len pre) 0
      = Return (len pre + len bs))
  /\ skip_field data offset 1 = Return (offset + 8)
  /\ (forall (pre length_raw content : bytes) (l : Z),
         varint_value length_raw = Some l ->
         skip_field (pre ++ length_raw ++ content) (len pre) 2
         = Return (len pre + len length_raw + l))
  /\ skip_field data offset 5 = Return (offset + 4)
  /\ (wire_type <> 0 -> wire_type <> 1 -> wire_type <> 2 -> wire_type <> 5 ->
      skip_field data offset wire_type = Raise (UnknownWireType wire_type)).
Proof.
  repeat split.
  - intros pre bs post v Hv. unfold skip_field. cbn [Z.eqb].
    by rewrite (read_varint_at _ _ _ _ Hv).
  - intros pre length_raw content l Hl. unfold skip_field. cbn [Z.eqb Pos.eqb].
    by rewrite (read_varint_at _ _ _ _ Hl).
  - intros H0 H1 H2 H5. unfold skip_field.
    destruct (Z.eqb_spec wire_type 0); [done|].
    destruct (Z.eqb_spec wire_type 1); [done|].
    destruct (Z.eqb_spec wire_type 2); [done|].
    by destruct (Z.eqb_spec wire_type 5).
Qed.

Lemma skip_field_by_wire_type_witness :
  skip_field ([x08] ++ [xac; x02] ++ [x10]) (len [x08]) 0
  = Return (len [x08] + len [xac; x02])
  /\ skip_field ([x0a] ++ [x03] ++ [x41]) (len [x0a]) 2
     = Return (len [x0a] + len [x03] + 3)
  /\ skip_field [x0b; x01] 1 3 = Raise (UnknownWireType 3).
Proof.
  pose proof (skip_field_by_wire_type [x0b; x01] 1 3)
    as (_ & _ & H0 & _ & H2 & _ & Hother).
  split; [|split].
  - apply (H0 [x08] [xac; x02] [x10] 300). reflexivity.
  - apply (H2 [x0a] [x03] [x41] 3). reflexivity.
  - apply Hother; discriminate.
Defined.

(** ** The Field Locator *)

Lemma first_length_delimited_none (target : Z) (fs : list field) :
  forallb (fun g => negb (length_delimited_as target g)) fs = true ->
  first_length_delimited target fs = None.
Proof.
  induction fs as [|f fs IH]; intros H; [reflexivity|].
  apply forallb_cons_true in H as [Hf Hfs].
  cbn [first_length_delimited]. unfold length_delimited_as in Hf.
  destruct (body f); auto.
  apply negb_true_iff in Hf. rewrite Hf. auto.
Qed.

Lemma first_length_delimited_app (target : Z) (fs1 fs2 : list field) :
  forallb (fun g => negb (length_delimited_as target g)) fs1 = true ->
  first_length_delimited target (fs1 ++ fs2)
  = first_length_delimited target fs2.
Proof.
  induction fs1 as [|f fs1 IH]; intros H; [reflexivity|].
  apply forallb_cons_true in H as [Hf Hfs].
  cbn [app first_length_delimited]. unfold length_delimited_as in Hf.
  destruct (body f); auto.
  apply negb_true_iff in Hf. rewrite Hf. auto.
Qed.

Lemma forallb_middle {A} (p : A -> bool) (l1 l2 : list A) (x : A) :
  forallb p (l1 ++ x :: l2) = true ->
  forallb p l1 = true /\ p x = true /\ forallb p l2 = true.
Proof.
  rewrite forallb_app. intros H. apply andb_prop in H as [H1 H2].
  apply forallb_cons_true in H2. tauto.
Qed.

(** Behind valid fields none of which is looked for, [find_field] goes on
    with what follows them. *)
Lemma find_field_after_fields (target : Z) (fs : list field) (post : bytes) :
  forallb valid_field fs = true ->
  first_length_delimited target fs = None ->
  find_field (serialize fs ++ post) target
  = find_field_loop (S (length (serialize fs ++ post) - length fs))
                    (serialize fs ++ post) target (len (serialize fs)).
Proof.
  intros Hfs Hnone. unfold find_field.
  pose proof (fields_le_bytes fs Hfs) as Hle.
  change (find_field_loop (S (length (serialize fs ++ post)))
                          (serialize fs ++ post) target 0)
    with (find_field_loop (S (length (serialize fs ++ post)))
                          ([] ++ serialize fs ++ post) target (len [])).
  rewrite find_field_loop_scan by (rewrite ?length_app; assumption || lia).
  rewrite Hnone. cbn [app]. f_equal. rewrite length_app. lia.
Qed.

(** C2. On a well-formed buffer, [find_field] returns the value bytes of
    the first length-delimited field with the target number, in buffer
    order, whatever fields come after it, and these bytes are as many as
    the field declares; when no length-delimited field has the target
    number, and so on the empty buffer, it returns [None]. *)
Theorem find_field_first_match (target : Z) :
  (forall (fs1 fs2 : list field) (f : field) (length_raw value : bytes),
      forallb valid_field (fs1 ++ f :: fs2) = true ->
      forallb (fun g => negb (length_delimited_as target g)) fs1 = true ->
      body f = LengthDelimited length_raw value ->
      field_number f = target ->
      find_field (serialize (fs1 ++ f :: fs2)) target = Return (Some value)
      /\ varint_value length_raw = Some (len value))
  /\ (forall fs : list field,
         forallb valid_field fs = true ->
         forallb (fun g => negb (length_delimited_as target g)) fs = true ->
         find_field (serialize fs) target = Return None)
  /\ find_field [] target = Return None.
Proof.
  split; [|split; [|reflexivity]].
  - intros fs1 fs2 f length_raw value Hvalid Hbefore Hbody Hnum.
    rewrite find_field_serialize by assumption.
    rewrite first_length_delimited_app by assumption.
    cbn [first_length_delimited]. rewrite Hbody, Hnum, Z.eqb_refl.
    split; [reflexivity|].
    apply forallb_middle in Hvalid as (_ & Hf & _).
    pose proof (valid_field_payload f Hf) as Hp. rewrite Hbody in Hp.
    by apply bool_decide_eq_true in Hp.
  - intros fs Hvalid Hnone.
    rewrite find_field_serialize by assumption.
    by rewrite first_length_delimited_none.
Qed.

Lemma find_field_first_match_witness :
  find_field
    (serialize ([Field [x08] (Varint [x01])]
                ++ Field [x32] (LengthDelimited [x02] [x41; x42])
                   :: [Field [x32] (LengthDelimited [x01] [x43])])) 6
  = Return (Some [x41; x42])
  /\ varint_value [x02] = Some (len [x41; x42]).
Proof.
  apply (proj1 (find_field_first_match 6)
               [Field [x08] (Varint [x01])]
               [Field [x32] (LengthDelimited [x01] [x43])]
               (Field [x32] (LengthDelimited [x02] [x41; x42]))
               [x02] [x41; x42]); reflexivity.
Defined.

(** One round of the loop of [find_field] on a tag that is followed by a
    varint the buffer ends in the middle of. *)
Lemma find_field_loop_cut_varint (fuel : nat) (target tag : Z)
      (pre tag_bs junk : bytes) :
  varint_value tag_bs = Some tag ->
  Z.land tag 7 = 0 \/ Z.land tag 7 = 2 ->
  read_varint junk 0 = Raise IncompleteVarint ->
  find_field_loop (S fuel) (pre ++ tag_bs ++ junk) target (len pre)
  = Raise IncompleteVarint.
Proof.
  intros Htag Hwire Hjunk. cbn [find_field_loop].
  pose proof (varint_value_nonempty _ _ Htag) as Hne.
  pose proof (len_nonneg junk) as Hj.
  destruct (len pre <? len (pre ++ tag_bs ++ junk)) eqn:E;
    [|rewrite !len_app in E; lia].
  rewrite (read_varint_at _ _ _ _ Htag).
  assert (Hcut : read_varint (pre ++ tag_bs ++ junk) (len pre + len tag_bs)
                 = Raise IncompleteVarint).
  { rewrite app_assoc, <- len_app, <- (Z.add_0_r (len (pre ++ tag_bs))).
    rewrite read_varint_prefix by lia. by rewrite Hjunk. }
  unfold skip_field. rewrite Hcut.
  destruct Hwire as [-> | ->]; cbn [Z.eqb Pos.eqb andb mbind outcome_bind];
    rewrite ?andb_false_r; [reflexivity|].
  by destruct (Z.shiftr tag 3 =? target).
Qed.

(** C6, as the code has it.  Only the read of a tag is guarded in
    [find_field]: when the tag that should come next is a malformed varint,
    the scan stops and the answer is [None].  A varint cut short in the
    length of a field, or in the value of a varint field being skipped,
    raises its error out of [find_field].  A match found in a well-formed
    buffer is returned whatever bytes follow it. *)
Theorem find_field_malformed (target : Z) (fs : list field) (junk : bytes) :
  forallb valid_field fs = true ->
  (forallb (fun g => negb (length_delimited_as target g)) fs = true ->
   read_varint junk 0 = Raise IncompleteVarint ->
   find_field (serialize fs ++ junk) target = Return None)
  /\ (forall (tag_bs : bytes) (tag : Z),
         forallb (fun g => negb (length_delimited_as target g)) fs = true ->
         varint_value tag_bs = Some tag ->
         Z.land tag 7 = 0 \/ Z.land tag 7 = 2 ->
         read_varint junk 0 = Raise IncompleteVarint ->
         find_field (serialize fs ++ tag_bs ++ junk) target
         = Raise IncompleteVarint)
  /\ (forall value : bytes,
         find_field (serialize fs) target = Return (Some value) ->
         find_field (serialize fs ++ junk) target = Return (Some value)).
Proof.
  intros Hvalid. split; [|split].
  - intros Hnone Hjunk.
    rewrite find_field_after_fields
      by (assumption || by apply first_length_delimited_none).
    cbn [find_field_loop].
    destruct (len (serialize fs) <? len (serialize fs ++ junk));
      [|reflexivity].
    rewrite <- (Z.add_0_r (len (serialize fs))).
    rewrite read_varint_prefix by lia. by rewrite Hjunk.
  - intros tag_bs tag Hnone Htag Hwire Hjunk.
    rewrite find_field_after_fields
      by (assumption || by apply first_length_delimited_none).
    by apply (find_field_loop_cut_varint _ target tag).
  - intros value Hfound.
    rewrite find_field_serialize in Hfound by assumption.
    injection Hfound as Hfound.
    by apply find_field_match_then_anything.
Qed.

Lemma find_field_malformed_witness :
  find_field (serialize [Field [x08] (Varint [x01])] ++ [x80; xff]) 6
  = Return None
  /\ find_field (serialize [Field [x08] (Varint [x01])] ++ [x32] ++ [x80; xff]) 6
     = Raise IncompleteVarint
  /\ find_field (serialize [Field [x32] (LengthDelimited [x01] [x43])]
                 ++ [x80; xff]) 6
     = Return (Some [x43]).
Proof.
  split; [|split].
  - apply (find_field_malformed 6 [Field [x08] (Varint [x01])] [x80; xff]);
      reflexivity.
  - apply (find_field_malformed 6 [Field [x08] (Varint [x01])] [x80; xff]
             eq_refl) with (tag := 50);
      [reflexivity | reflexivity | right; reflexivity | reflexivity].
  - apply (find_field_malformed 6
             [Field [x32] (LengthDelimited [x01] [x43])] [x80; xff]);
      reflexivity.
Defined.

(** C6, counterexample: a varint cut short in the length of the field that
    is looked for, and one cut short in the value of a field that is
    skipped, are not turned into [None]: the error leaves [find_field]. *)
Lemma find_field_propagates_decode_error :
  find_field [x0a; x80] 1 = Raise IncompleteVarint
  /\ find_field [x08; x80] 5 = Raise IncompleteVarint
  /\ find_field [x0a; x80] 1 <> Return None.
Proof. repeat split; (reflexivity || discriminate). Qed.

(** ** Reads stay inside the buffer *)

(** C1, as the code has it.  On every buffer the five operations index the
    buffer inside its bounds only: the one exceptions they raise are the
    [ValueError]s of the decoder, never [IndexError], and their loops end.
    A varint that returns was read inside the buffer, and one that runs to
    the end of the buffer fails.  The length a length-delimited field
    declares is not compared with what is left: when fewer bytes remain,
    [find_field] returns the bytes that remain; and [skip_field] adds 8 or 4
    to the offset for the fixed-width wire types whatever the size of the
    buffer. *)
Theorem decoder_stays_in_bounds (data : bytes) (offset wire_type : Z) :
  ((forall e, 0 <= offset ->
              read_varint data offset = Raise e -> e = IncompleteVarint)
   /\ (forall e, 0 <= offset ->
                 skip_field data offset wire_type = Raise e ->
                 is_ValueError e = true)
   /\ (forall target e, find_field data target = Raise e ->
                        is_ValueError e = true)
   /\ (forall e, parse_timestamp data = Raise e -> is_ValueError e = true)
   /\ (forall e, parse_oauth_token_info data = Raise e ->
                 is_ValueError e = true))
  /\ (forall v p, 0 <= offset ->
                  read_varint data offset = Return (v, p) ->
                  offset < p <= len data)
  /\ (0 <= offset ->
      forallb continues (drop (Z.to_nat offset) data) = true ->
      read_varint data offset = Raise IncompleteVarint)
  /\ (forall (fs : list field) (tag_bs length_raw rest : bytes)
             (target tag l : Z),
         forallb valid_field fs = true ->
         forallb (fun g => negb (length_delimited_as target g)) fs = true ->
         varint_value tag_bs = Some tag ->
         Z.shiftr tag 3 = target -> Z.land tag 7 = 2 ->
         varint_value length_raw = Some l ->
         len rest <= l ->
         find_field (serialize fs ++ tag_bs ++ length_raw ++ rest) target
         = Return (Some rest))
  /\ skip_field data offset 1 = Return (offset + 8)
  /\ skip_field data offset 5 = Return (offset + 4).
Proof.
  split; [|split; [|split; [|split; [|split]]]]; try reflexivity.
  - split; [|split; [|split; [|split]]].
    + intros e. apply read_varint_raises.
    + intros e. apply skip_field_raises.
    + intros target e. apply find_field_raises.
    + intros e. apply parse_timestamp_raises.
    + intros e. apply parse_oauth_token_info_raises.
  - intros v p Ho H.
    destruct (read_varint_cases data offset Ho) as [(v' & p' & Hr & _ & Hp)|Hr];
      rewrite Hr in H; [|discriminate].
    by injection H as <- <-.
  - intros Ho Hall. rewrite read_varint_spec by assumption.
    by rewrite leading_varint_all_continue.
  - intros fs tag_bs length_raw rest target tag l
           Hvalid Hnone Htag Hnum Hwire Hlen Hrest.
    rewrite find_field_after_fields
      by (assumption || by apply first_length_delimited_none).
    cbn [find_field_loop].
    pose proof (varint_value_nonempty _ _ Htag) as Hne.
    pose proof (len_nonneg (length_raw ++ rest)) as Hj.
    destruct (len (serialize fs)
              <? len (serialize fs ++ tag_bs ++ length_raw ++ rest)) eqn:E;
      [|rewrite !len_app in E; rewrite len_app in Hj; lia].
    rewrite (read_varint_at _ _ _ _ Htag).
    rewrite Hnum, Hwire, Z.eqb_refl. cbn [Z.eqb Pos.eqb andb].
    rewrite (app_assoc (serialize fs) tag_bs), <- len_app.
    rewrite (read_varint_at _ _ _ _ Hlen). cbn [mbind outcome_bind].
    rewrite (app_assoc (serialize fs ++ tag_bs) length_raw), <- len_app.
    by rewrite slice_short.
Qed.

Lemma decoder_stays_in_bounds_witness :
  is_ValueError IncompleteVarint = true
  /\ is_ValueError (UnknownWireType 3) = true
  /\ is_ValueError UnicodeDecodeError = true
  /\ (0 < 2 <= len [xac; x02; x10])
  /\ read_varint [x01; x80; xff] 1 = Raise IncompleteVarint
  /\ find_field (serialize [Field [x08] (Varint [x01])]
                 ++ [x32] ++ [x05] ++ [x41; x42]) 6
     = Return (Some [x41; x42]).
Proof.
  split; [|split; [|split; [|split; [|split]]]].
  - pose proof (decoder_stays_in_bounds [x0a; x80] 0 0)
      as ((_ & _ & H & _) & _).
    apply (H 1). reflexivity.
  - pose proof (decoder_stays_in_bounds [x0b; x01] 1 3)
      as ((_ & H & _) & _).
    apply H; [discriminate | reflexivity].
  - pose proof (decoder_stays_in_bounds [x0a; x01; xff] 0 0)
      as ((_ & _ & _ & _ & H) & _).
    apply H. reflexivity.
  - pose proof (decoder_stays_in_bounds [xac; x02; x10] 0 0)
      as (_ & H & _).
    apply (H 300 2); [discriminate | reflexivity].
  - pose proof (decoder_stays_in_bounds [x01; x80; xff] 1 0)
      as (_ & _ & H & _).
    apply H; [discriminate | reflexivity].
  - pose proof (decoder_stays_in_bounds [] 0 0) as (_ & _ & _ & H & _).
    apply (H [Field [x08] (Varint [x01])] [x32] [x05] [x41; x42] 6 50 5);
      (reflexivity || discriminate).
Defined.

(** C1, counterexample: a field that declares five bytes when one is left
    is returned with that one byte, with no failure; and skipping a fixed
    64-bit or 32-bit field with no byte left gives an offset beyond the
    buffer. *)
Lemma truncated_field_is_not_a_failure :
  find_field [x0a; x05; x41] 1 = Return (Some [x41])
  /\ skip_field [x09] 1 1 = Return 9
  /\ skip_field [x0d] 1 5 = Return 5
  /\ len [x09] < 9.
Proof. repeat split. Qed.

(** ** The Credential Record Decoder *)

Lemma assemble_app (fs1 fs2 : list field) (info : gmap string pyval) :
  assemble (fs1 ++ fs2) info
  = (info' ← assemble fs1 info; assemble fs2 info').
Proof.
  revert info. induction fs1 as [|f fs1 IH]; intros info; [reflexivity|].
  cbn [app assemble].
  destruct (store_field info f) as [info1|e]; [|reflexivity].
  cbn [mbind outcome_bind]. apply IH.
Qed.

Lemma record_key_inj (n m : Z) (key : string) :
  record_key n = Some key -> record_key m = Some key -> n = m.
Proof.
  unfold record_key. intros Hn Hm.
  repeat match goal with
         | H : context [?x =? ?y] |- _ => destruct (Z.eqb_spec x y)
         end;
    congruence.
Qed.

Lemma store_field_key (info : gmap string pyval) (f : field)
      (length_raw value : bytes) (key : string) :
  body f = LengthDelimited length_raw value ->
  record_key (field_number f) = Some key ->
  store_field info f
  = (v ← record_value (field_number f) value; Return (<[key := v]> info)).
Proof. intros Hbody Hkey. unfold store_field. by rewrite Hbody, Hkey. Qed.

(** A field that is not the length-delimited field of number [n] leaves the
    key of [n] as it is. *)
Lemma store_field_lookup_other (info info' : gmap string pyval) (g : field)
      (n : Z) (key : string) :
  store_field info g = Return info' ->
  length_delimited_as n g = false ->
  record_key n = Some key ->
  info' !! key = info !! key.
Proof.
  unfold store_field, length_delimited_as. intros Hstore Hg Hkey.
  destruct (body g) as [raw|raw|length_raw value|raw];
    try (by injection Hstore as <-).
  destruct (record_key (field_number g)) as [key'|] eqn:Hkey';
    [|by injection Hstore as <-].
  destruct (record_value (field_number g) value) as [v|e]; [|discriminate].
  cbn in Hstore. injection Hstore as <-.
  apply lookup_insert_ne. intros ->.
  apply Z.eqb_neq in Hg. apply Hg. by apply (record_key_inj _ _ key).
Qed.

Lemma assemble_lookup_other (fs : list field) (n : Z) (key : string) :
  forall info info' : gmap string pyval,
    assemble fs info = Return info' ->
    forallb (fun g => negb (length_delimited_as n g)) fs = true ->
    record_key n = Some key ->
    info' !! key = info !! key.
Proof.
  induction fs as [|g fs IH]; intros info info' Hasm Hfs Hkey.
  - by injection Hasm as <-.
  - apply forallb_cons_true in Hfs as [Hg Hfs]. apply negb_true_iff in Hg.
    cbn [assemble] in Hasm.
    destruct (store_field info g) as [info1|e] eqn:Hstore; [|discriminate].
    cbn [mbind outcome_bind] in Hasm.
    rewrite (IH info1 info' Hasm Hfs Hkey).
    by apply (store_field_lookup_other info info1 g n).
Qed.

(** The record when a field is told apart from those before and after
    it. *)
Lemma parse_oauth_token_info_around (fs1 fs2 : list field) (f : field)
      (length_raw value : bytes) (key : string) :
  forallb valid_field (fs1 ++ f :: fs2) = true ->
  body f = LengthDelimited length_raw value ->
  record_key (field_number f) = Some key ->
  parse_oauth_token_info (serialize (fs1 ++ f :: fs2))
  = (info1 ← assemble fs1 ∅;
     v ← record_value (field_number f) value;
     assemble fs2 (<[key := v]> info1)).
Proof.
  intros Hvalid Hbody Hkey.
  rewrite parse_oauth_token_info_serialize by assumption.
  rewrite assemble_app.
  destruct (assemble fs1 ∅) as [info1|e]; [|reflexivity].
  cbn [mbind outcome_bind assemble].
  rewrite (store_field_key info1 f _ _ key Hbody Hkey).
  by destruct (record_value (field_number f) value).
Qed.

Lemma parse_oauth_token_info_last (fs1 fs2 : list field) (f : field)
      (length_raw value : bytes) (key : string) (info : gmap string pyval) :
  forallb valid_field (fs1 ++ f :: fs2) = true ->
  body f = LengthDelimited length_raw value ->
  record_key (field_number f) = Some key ->
  forallb (fun g => negb (length_delimited_as (field_number f) g)) fs2 = true ->
  parse_oauth_token_info (serialize (fs1 ++ f :: fs2)) = Return info ->
  exists v, record_value (field_number f) value = Return v
            /\ info !! key = Some v.
Proof.
  intros Hvalid Hbody Hkey Hafter Hparse.
  rewrite (parse_oauth_token_info_around _ _ _ _ _ key Hvalid Hbody Hkey)
    in Hparse.
  destruct (assemble fs1 ∅) as [info1|e]; [|discriminate].
  cbn [mbind outcome_bind] in Hparse.
  destruct (record_value (field_number f) value) as [v|e]; [|discriminate].
  cbn [mbind outcome_bind] in Hparse.
  exists v. split; [reflexivity|].
  rewrite (assemble_lookup_other fs2 (field_number f) key _ _
                                 Hparse Hafter Hkey).
  apply lookup_insert_eq.
Qed.

Lemma first_varint_none (target : Z) (fs : list field) :
  forallb (fun g => negb (varint_as target g)) fs = true ->
  first_varint target fs = None.
Proof.
  induction fs as [|f fs IH]; intros H; [reflexivity|].
  apply forallb_cons_true in H as [Hf Hfs].
  cbn [first_varint]. unfold varint_as in Hf.
  destruct (body f); auto.
  apply negb_true_iff in Hf. rewrite Hf. auto.
Qed.

(** The record is assembled whenever every field that is stored has a
    value that decodes. *)
Lemma assemble_returns (fs : list field) :
  (forall (f : field) (length_raw value : bytes) (key : string),
      In f fs ->
      body f = LengthDelimited length_raw value ->
      record_key (field_number f) = Some key ->
      exists v, record_value (field_number f) value = Return v) ->
  forall info : gmap string pyval,
    exists info', assemble fs info = Return info'.
Proof.
  induction fs as [|f fs IH]; intros Hdec info; [by exists info|].
  cbn [assemble].
  assert (Hstore : exists info1, store_field info f = Return info1).
  { unfold store_field.
    destruct (body f) as [raw|raw|length_raw value|raw] eqn:Hbody;
      try (by exists info).
    destruct (record_key (field_number f)) as [key|] eqn:Hkey;
      [|by exists info].
    destruct (Hdec f length_raw value key (or_introl eq_refl) Hbody Hkey)
      as [v ->].
    by eexists. }
  destruct Hstore as [info1 ->]. cbn [mbind outcome_bind].
  apply IH. intros g length_raw value key Hin.
  apply Hdec. by right.
Qed.

(** C3. On a well-formed sub-blob [parse_oauth_token_info] returns the
    record assembled from the fields in buffer order: a length-delimited
    field 1, 2 or 3 is decoded as UTF-8 into [access_token], [token_type] or
    [refresh_token], a length-delimited field 4 is given to
    [parse_timestamp] for [expiry_seconds], and a field with another number
    or another wire type changes nothing; the record is returned whenever
    the values to store decode.  On the sub-blob with field 1 =
    "AT1", field 3 = "RT1" and field 4 = a sub-blob whose field 1 is the
    varint 1700000000, the record has these three values and no
    [token_type]. *)
Theorem parse_oauth_token_info_assembles :
  (forall fs : list field,
      forallb valid_field fs = true ->
      parse_oauth_token_info (serialize fs) = assemble fs ∅)
  /\ (forall fs : list field,
         forallb valid_field fs = true ->
         (forall (f : field) (length_raw value : bytes) (key : string),
             In f fs ->
             body f = LengthDelimited length_raw value ->
             record_key (field_number f) = Some key ->
             exists v, record_value (field_number f) value = Return v) ->
         exists info, parse_oauth_token_info (serialize fs) = Return info)
  /\ (forall (info : gmap string pyval) (f : field) (length_raw value : bytes)
             (key : string) (s : str),
         body f = LengthDelimited length_raw value ->
         field_number f = 1 /\ key = "access_token"
         \/ field_number f = 2 /\ key = "token_type"
         \/ field_number f = 3 /\ key = "refresh_token" ->
         utf8_decode value = Some s ->
         store_field info f = Return (<[key := PyStr s]> info))
  /\ (forall (info : gmap string pyval) (f : field) (length_raw value : bytes)
             (t : option Z),
         body f = LengthDelimited length_raw value ->
         field_number f = 4 ->
         parse_timestamp value = Return t ->
         store_field info f
         = Return (<["expiry_seconds" := of_optional_int t]> info))
  /\ (forall (info : gmap string pyval) (f : field),
         length_delimited_as 1 f = false ->
         length_delimited_as 2 f = false ->
         length_delimited_as 3 f = false ->
         length_delimited_as 4 f = false ->
         store_field info f = Return info)
  /\ (exists info : gmap string pyval,
         parse_oauth_token_info
           [x0a; x03; x41; x54; x31; x1a; x03; x52; x54; x31;
            x22; x06; x08; x80; xe2; xcf; xaa; x06]
         = Return info
         /\ info !! "access_token" = Some (PyStr (text "AT1"))
         /\ info !! "refresh_token" = Some (PyStr (text "RT1"))
         /\ info !! "expiry_seconds" = Some (PyInt 1700000000)
         /\ info !! "token_type" = None).
Proof.
  split; [|split; [|split; [|split; [|split]]]].
  - apply parse_oauth_token_info_serialize.
  - intros fs Hvalid Hdec.
    rewrite parse_oauth_token_info_serialize by assumption.
    by apply assemble_returns.
  - intros info f length_raw value key s Hbody Hnum Hs.
    unfold store_field, record_key, record_value, decode_utf8.
    rewrite Hbody, Hs.
    by destruct Hnum as [[-> ->]|[[-> ->]|[-> ->]]].
  - intros info f length_raw value t Hbody Hnum Ht.
    unfold store_field, record_key, record_value.
    by rewrite Hbody, Hnum, Ht.
  - intros info f H1 H2 H3 H4.
    unfold store_field, record_key. unfold length_delimited_as in *.
    destruct (body f); try reflexivity.
    by rewrite H1, H2, H3, H4.
  - exists (<["expiry_seconds" := PyInt 1700000000]>
             (<["refresh_token" := PyStr (text "RT1")]>
               (<["access_token" := PyStr (text "AT1")]> ∅))).
    split; [vm_compute; reflexivity|].
    repeat split; vm_compute; reflexivity.
Qed.

Lemma parse_oauth_token_info_assembles_witness :
  parse_oauth_token_info
    (serialize [Field [x0a] (LengthDelimited [x03] [x41; x54; x31]);
                Field [x10] (Varint [x07]);
                Field [x1a] (LengthDelimited [x03] [x52; x54; x31])])
  = assemble [Field [x0a] (LengthDelimited [x03] [x41; x54; x31]);
              Field [x10] (Varint [x07]);
              Field [x1a] (LengthDelimited [x03] [x52; x54; x31])] ∅
  /\ (exists info,
         parse_oauth_token_info
           (serialize [Field [x0a] (LengthDelimited [x03] [x41; x54; x31]);
                       Field [x22] (LengthDelimited [x02] [x08; x05])])
         = Return info)
  /\ store_field ∅ (Field [x0a] (LengthDelimited [x03] [x41; x54; x31]))
     = Return (<["access_token" := PyStr (text "AT1")]> ∅)
  /\ store_field ∅ (Field [x22] (LengthDelimited [x02] [x08; x05]))
     = Return (<["expiry_seconds" := of_optional_int (Some 5)]> ∅)
  /\ store_field ∅ (Field [x10] (Varint [x07])) = Return ∅.
Proof.
  pose proof parse_oauth_token_info_assembles
    as (H1 & Hret & H2 & H3 & H4 & _).
  split; [|split; [|split; [|split]]].
  - apply H1. reflexivity.
  - apply Hret; [reflexivity|].
    intros f length_raw value key [<-|[<-|[]]] Hbody Hkey;
      injection Hbody as <- <-; by eexists.
  - apply (H2 ∅ _ [x03] [x41; x54; x31]);
      [reflexivity | left; split; reflexivity | reflexivity].
  - apply (H3 ∅ _ [x02] [x08; x05]); reflexivity.
  - apply H4; reflexivity.
Defined.

(** C10. When a known field number occurs several times as a
    length-delimited field, the last occurrence in buffer order is the one
    the record holds: whatever the fields before it stored under its key is
    replaced.  With two string fields numbered 3, [refresh_token] is the
    text of the second. *)
Theorem parse_oauth_token_info_last_wins :
  (forall (fs1 fs2 : list field) (f : field) (length_raw value : bytes)
          (key : string),
      forallb valid_field (fs1 ++ f :: fs2) = true ->
      body f = LengthDelimited length_raw value ->
      record_key (field_number f) = Some key ->
      forallb (fun g => negb (length_delimited_as (field_number f) g)) fs2
      = true ->
      parse_oauth_token_info (serialize (fs1 ++ f :: fs2))
      = (info1 ← assemble fs1 ∅;
         v ← record_value (field_number f) value;
         assemble fs2 (<[key := v]> info1))
      /\ forall info : gmap string pyval,
           parse_oauth_token_info (serialize (fs1 ++ f :: fs2)) = Return info ->
           exists v, record_value (field_number f) value = Return v
                     /\ info !! key = Some v)
  /\ (forall (f1 f2 : field) (raw1 value1 raw2 value2 : bytes) (s1 s2 : str),
         forallb valid_field [f1; f2] = true ->
         body f1 = LengthDelimited raw1 value1 -> field_number f1 = 3 ->
         body f2 = LengthDelimited raw2 value2 -> field_number f2 = 3 ->
         utf8_decode value1 = Some s1 -> utf8_decode value2 = Some s2 ->
         parse_oauth_token_info (serialize [f1; f2])
         = Return {["refresh_token" := PyStr s2]}).
Proof.
  split.
  - intros fs1 fs2 f length_raw value key Hvalid Hbody Hkey Hafter. split.
    + by apply (parse_oauth_token_info_around _ _ _ length_raw).
    + intros info Hparse.
      by apply (parse_oauth_token_info_last fs1 fs2 f length_raw).
  - intros f1 f2 raw1 value1 raw2 value2 s1 s2 Hvalid Hb1 Hn1 Hb2 Hn2 Hs1 Hs2.
    rewrite parse_oauth_token_info_serialize by assumption.
    cbn [assemble]. unfold store_field, record_key, record_value, decode_utf8.
    rewrite Hb1, Hn1, Hs1. cbn [Z.eqb Pos.eqb mbind outcome_bind].
    rewrite Hb2, Hn2, Hs2. cbn [Z.eqb Pos.eqb mbind outcome_bind].
    by rewrite insert_insert_eq, insert_empty.
Qed.

Lemma parse_oauth_token_info_last_wins_witness :
  (exists v, record_value 3 [x42] = Return v
             /\ (<["refresh_token" := PyStr (text "B")]>
                   (<["access_token" := PyStr (text "C")]> ∅)
                 : gmap string pyval)
                !! "refresh_token" = Some v)
  /\ parse_oauth_token_info
       (serialize [Field [x1a] (LengthDelimited [x01] [x41]);
                   Field [x1a] (LengthDelimited [x01] [x42])])
     = Return {["refresh_token" := PyStr (text "B")]}.
Proof.
  pose proof parse_oauth_token_info_last_wins as [H1 H2]. split.
  - apply (H1 [Field [x1a] (LengthDelimited [x01] [x41])]
              [Field [x0a] (LengthDelimited [x01] [x43])]
              (Field [x1a] (LengthDelimited [x01] [x42]))
              [x01] [x42] "refresh_token"); reflexivity.
  - apply (H2 _ _ [x01] [x41] [x01] [x42] (text "A")); reflexivity.
Defined.

(** C9, as the code has it.  When the sub-blob of field 4 is well formed
    and has no varint field numbered 1, [parse_timestamp] returns [None],
    and [parse_oauth_token_info] stores this [None] under [expiry_seconds]:
    the key is in the record it returns, with the value [None]. *)
Theorem parse_oauth_token_info_stores_none
        (fs1 fs2 ts : list field) (f : field) (length_raw : bytes) :
  forallb valid_field (fs1 ++ f :: fs2) = true ->
  body f = LengthDelimited length_raw (serialize ts) ->
  field_number f = 4 ->
  forallb valid_field ts = true ->
  forallb (fun g => negb (varint_as 1 g)) ts = true ->
  forallb (fun g => negb (length_delimited_as 4 g)) fs2 = true ->
  parse_timestamp (serialize ts) = Return None
  /\ parse_oauth_token_info (serialize (fs1 ++ f :: fs2))
     = (info1 ← assemble fs1 ∅;
        assemble fs2 (<["expiry_seconds" := PyNone]> info1))
  /\ forall info : gmap string pyval,
       parse_oauth_token_info (serialize (fs1 ++ f :: fs2)) = Return info ->
       info !! "expiry_seconds" = Some PyNone.
Proof.
  intros Hvalid Hbody Hnum Hts Hnone Hafter.
  assert (Htime : parse_timestamp (serialize ts) = Return None).
  { rewrite parse_timestamp_serialize by assumption.
    by rewrite first_varint_none. }
  assert (Hkey : record_key (field_number f) = Some "expiry_seconds")
    by (by rewrite Hnum).
  assert (Hvalue : record_value (field_number f) (serialize ts)
                   = Return PyNone).
  { unfold record_value. by rewrite Hnum, Htime. }
  split; [exact Htime|]. split.
  - rewrite (parse_oauth_token_info_around _ _ _ _ _ _ Hvalid Hbody Hkey).
    by rewrite Hvalue.
  - intros info Hparse. rewrite <- Hnum in Hafter.
    destruct (parse_oauth_token_info_last _ _ _ _ _ _ _
                Hvalid Hbody Hkey Hafter Hparse) as (v & Hv & Hlookup).
    rewrite Hvalue in Hv. by injection Hv as <-.
Qed.

Lemma parse_oauth_token_info_stores_none_witness :
  parse_timestamp (serialize [Field [x10] (Varint [x07])]) = Return None
  /\ parse_oauth_token_info
       (serialize ([Field [x0a] (LengthDelimited [x01] [x41])]
                   ++ Field [x22] (LengthDelimited [x02]
                                     (serialize [Field [x10] (Varint [x07])]))
                      :: []))
     = (info1 ← assemble [Field [x0a] (LengthDelimited [x01] [x41])] ∅;
        assemble [] (<["expiry_seconds" := PyNone]> info1))
  /\ forall info : gmap string pyval,
       parse_oauth_token_info
         (serialize ([Field [x0a] (LengthDelimited [x01] [x41])]
                     ++ Field [x22] (LengthDelimited [x02]
                                       (serialize [Field [x10] (Varint [x07])]))
                        :: []))
       = Return info ->
       info !! "expiry_seconds" = Some PyNone.
Proof.
  apply (parse_oauth_token_info_stores_none
           [Field [x0a] (LengthDelimited [x01] [x41])] []
           [Field [x10] (Varint [x07])]
           (Field [x22] (LengthDelimited [x02]
                           (serialize [Field [x10] (Varint [x07])])))
           [x02]); reflexivity.
Defined.

(** C9, counterexample: with an empty field 4 the record that is returned
    has the key [expiry_seconds], holding [None]. *)
Lemma expiry_seconds_is_stored_as_none :
  exists info : gmap string pyval,
    parse_oauth_token_info [x22; x00] = Return info
    /\ parse_timestamp [] = Return None
    /\ info !! "expiry_seconds" = Some PyNone
    /\ info !! "expiry_seconds" <> None.
Proof.
  exists {["expiry_seconds" := PyNone]}.
  split; [vm_compute; reflexivity|].
  repeat split; (reflexivity || discriminate).
Qed.

(** ** Further properties of the decoder *)

Lemma leading_varint_app (d post : bytes) (v n : Z) :
  leading_varint d = Some (v, n) -> leading_varint (d ++ post) = Some (v, n).
Proof.
  revert v n. induction d as [|b d IH]; intros v n H; [discriminate|].
  cbn [leading_varint app] in *.
  destruct (byte_val b <? 128); [assumption|].
  destruct (leading_varint d) as [[v' n']|]; [|discriminate].
  by rewrite (IH v' n' eq_refl).
Qed.

Lemma read_varint_suffix (d post : bytes) (o v p : Z) :
  0 <= o ->
  read_varint d o = Return (v, p) -> read_varint (d ++ post) o = Return (v, p).
Proof.
  intros Ho H. rewrite read_varint_spec in * by assumption.
  destruct (leading_varint (drop (Z.to_nat o) d)) as [[v' n]|] eqn:L;
    [|discriminate].
  pose proof (leading_varint_bounds _ _ _ L) as [_ Hn].
  unfold len in Hn. rewrite length_drop in Hn.
  rewrite drop_app_le by lia.
  by rewrite (leading_varint_app _ post _ _ L).
Qed.

(** X1. What [read_varint] answers at an offset depends on the bytes from
    that offset on only: bytes put before the buffer move the offsets and
    change nothing else, for a value as for a failure; and a value that is
    returned stays the same when bytes are added after the buffer. *)
Theorem read_varint_local (pre d post : bytes) (o : Z) :
  0 <= o ->
  read_varint (pre ++ d) (len pre + o)
  = shift_offset (len pre) (read_varint d o)
  /\ forall v p,
       read_varint d o = Return (v, p) ->
       read_varint (pre ++ d ++ post) (len pre + o) = Return (v, len pre + p).
Proof.
  intros Ho. split; [by apply read_varint_prefix|].
  intros v p H. rewrite read_varint_prefix by assumption.
  by rewrite (read_varint_suffix _ post _ _ _ Ho H).
Qed.

Lemma read_varint_local_witness :
  read_varint ([x0a; x0b] ++ [x01; xac; x02]) (len [x0a; x0b] + 1)
  = shift_offset (len [x0a; x0b]) (read_varint [x01; xac; x02] 1)
  /\ read_varint ([x0a; x0b] ++ [x01; xac; x02] ++ [xff]) (len [x0a; x0b] + 1)
     = Return (300, len [x0a; x0b] + 3).
Proof.
  pose proof (read_varint_local [x0a; x0b] [x01; xac; x02] [xff] 1
                                ltac:(discriminate)) as [H1 H2].
  split; [exact H1 | by apply H2].
Defined.

Lemma slice_infix (data : bytes) (lo hi : Z) :
  exists pre post, data = pre ++ slice data lo hi ++ post.
Proof.
  unfold slice.
  set (l := Z.to_nat (clamp (len data) lo)).
  set (n := Z.to_nat (clamp (len data) hi - clamp (len data) lo)).
  exists (take l data), (drop n (drop l data)).
  by rewrite (take_drop n), (take_drop l).
Qed.

Lemma find_field_loop_returns_slice (data : bytes) (target : Z) (v : bytes) :
  forall (fuel : nat) (o : Z),
    find_field_loop fuel data target o = Return (Some v) ->
    exists lo hi, v = slice data lo hi.
Proof.
  induction fuel as [|fuel IH]; intros o H; [discriminate|].
  cbn [find_field_loop] in H.
  destruct (o <? len data); [|discriminate].
  destruct (read_varint data o) as [[tag p]|e];
    [|destruct (is_ValueError e); discriminate].
  destruct ((Z.shiftr tag 3 =? target) && (Z.land tag 7 =? 2)).
  - destruct (read_varint data p) as [[length content_offset]|e];
      [|discriminate].
    cbn in H. injection H as <-. by eexists _, _.
  - destruct (skip_field data p (Z.land tag 7)) as [q|e]; [|discriminate].
    cbn [mbind outcome_bind] in H. by apply (IH q).
Qed.

(** X2. Whatever the buffer, well formed or not, the bytes [find_field]
    returns are a part of the buffer in one piece: the buffer is some bytes,
    then the returned bytes, then some bytes. *)
Theorem find_field_returns_part_of_buffer (data : bytes) (target : Z)
        (value : bytes) :
  find_field data target = Return (Some value) ->
  exists pre post, data = pre ++ value ++ post.
Proof.
  intros H. apply find_field_loop_returns_slice in H as (lo & hi & ->).
  apply slice_infix.
Qed.

Lemma find_field_returns_part_of_buffer_witness :
  exists pre post, [x08; x01; x32; x05; x41; x42] = pre ++ [x41; x42] ++ post.
Proof.
  apply (find_field_returns_part_of_buffer [x08; x01; x32; x05; x41; x42] 6).
  reflexivity.
Defined.

(** X3. From a non-negative offset [skip_field] never goes backwards, and
    for the wire types 0 and 2 it goes at least one byte forward and, for
    wire type 0, stays inside the buffer. *)
Theorem skip_field_progress (data : bytes) (offset wire_type p : Z) :
  0 <= offset ->
  skip_field data offset wire_type = Return p ->
  offset <= p
  /\ (wire_type = 0 -> offset < p <= len data)
  /\ (wire_type = 2 -> offset < p).
Proof.
  intros Ho H. unfold skip_field in H.
  destruct (read_varint_cases data offset Ho) as [(v & q & Hr & Hv & Hq)|Hr];
    rewrite Hr in H; cbn [mbind outcome_bind] in H;
    destruct (Z.eqb_spec wire_type 0); try discriminate;
    destruct (Z.eqb_spec wire_type 1); try discriminate;
    destruct (Z.eqb_spec wire_type 2); try discriminate;
    destruct (Z.eqb_spec wire_type 5); try discriminate;
    injection H as <-; repeat split; lia.
Qed.

Lemma skip_field_progress_witness :
  1 <= 5
  /\ (2 = 0 -> 1 < 5 <= len [x0a; x03; x41])
  /\ (2 = 2 -> 1 < 5).
Proof.
  apply (skip_field_progress [x0a; x03; x41] 1 2 5);
    [discriminate | reflexivity].
Defined.

(** ** Scans that go on behind valid fields *)

Lemma first_varint_app (target : Z) (fs1 fs2 : list field) :
  forallb (fun g => negb (varint_as target g)) fs1 = true ->
  first_varint target (fs1 ++ fs2) = first_varint target fs2.
Proof.
  induction fs1 as [|f fs1 IH]; intros H; [reflexivity|].
  apply forallb_cons_true in H as [Hf Hfs].
  cbn [app first_varint]. unfold varint_as in Hf.
  destruct (body f); auto.
  apply negb_true_iff in Hf. rewrite Hf. auto.
Qed.

Lemma parse_timestamp_then_anything (fs : list field) (post : bytes) :
  forallb valid_field fs = true ->
  parse_timestamp (serialize fs ++ post)
  = match first_varint 1 fs with
    | Some seconds => Return (Some seconds)
    | None =>
      parse_timestamp_loop (S (length (serialize fs ++ post) - length fs))
                           (serialize fs ++ post) (len (serialize fs))
    end.
Proof.
  intros Hfs. unfold parse_timestamp.
  pose proof (fields_le_bytes fs Hfs) as Hle.
  change (parse_timestamp_loop (S (length (serialize fs ++ post)))
                               (serialize fs ++ post) 0)
    with (parse_timestamp_loop (S (length (serialize fs ++ post)))
                               ([] ++ serialize fs ++ post) (len [])).
  rewrite parse_timestamp_loop_scan by (rewrite ?length_app; assumption || lia).
  destruct (first_varint 1 fs); [reflexivity|].
  cbn [app]. f_equal. rewrite length_app. lia.
Qed.

Lemma parse_oauth_token_info_then_anything (fs : list field) (post : bytes) :
  forallb valid_field fs = true ->
  parse_oauth_token_info (serialize fs ++ post)
  = (info ← assemble fs ∅;
     parse_oauth_token_info_loop
       (S (length (serialize fs ++ post) - length fs))
       (serialize fs ++ post) info (len (serialize fs))).
Proof.
  intros Hfs. unfold parse_oauth_token_info.
  pose proof (fields_le_bytes fs Hfs) as Hle.
  change (parse_oauth_token_info_loop (S (length (serialize fs ++ post)))
                                      (serialize fs ++ post) ∅ 0)
    with (parse_oauth_token_info_loop (S (length (serialize fs ++ post)))
                                      ([] ++ serialize fs ++ post) ∅ (len [])).
  rewrite parse_oauth_token_info_loop_scan
    by (rewrite ?length_app; assumption || lia).
  destruct (assemble fs ∅) as [info|e]; [|reflexivity].
  cbn [mbind outcome_bind app]. f_equal. rewrite length_app. lia.
Qed.

Lemma skip_field_unknown (data : bytes) (o wire_type : Z) :
  wire_type <> 0 -> wire_type <> 1 -> wire_type <> 2 -> wire_type <> 5 ->
  skip_field data o wire_type = Raise (UnknownWireType wire_type).
Proof.
  intros H0 H1 H2 H5. unfold skip_field.
  destruct (Z.eqb_spec wire_type 0); [done|].
  destruct (Z.eqb_spec wire_type 1); [done|].
  destruct (Z.eqb_spec wire_type 2); [done|].
  by destruct (Z.eqb_spec wire_type 5).
Qed.

Lemma tag_in_buffer (pre tag_bs rest : bytes) (tag : Z) :
  varint_value tag_bs = Some tag ->
  (len pre <? len (pre ++ tag_bs ++ rest)) = true.
Proof.
  intros Htag. pose proof (varint_value_nonempty _ _ Htag).
  pose proof (len_nonneg rest). apply Z.ltb_lt. rewrite !len_app. lia.
Qed.

(** X4. A field whose wire type is none of 0, 1, 2 and 5, met behind valid
    fields before anything is found, makes each of the three scans raise
    the unknown wire type error, whatever bytes follow the tag; in
    [find_field] this error is not caught. *)
Theorem scans_reject_unknown_wire_type (fs : list field)
        (tag_bs rest : bytes) (tag : Z) :
  forallb valid_field fs = true ->
  varint_value tag_bs = Some tag ->
  Z.land tag 7 <> 0 -> Z.land tag 7 <> 1 ->
  Z.land tag 7 <> 2 -> Z.land tag 7 <> 5 ->
  (forall target,
      forallb (fun g => negb (length_delimited_as target g)) fs = true ->
      find_field (serialize fs ++ tag_bs ++ rest) target
      = Raise (UnknownWireType (Z.land tag 7)))
  /\ (forallb (fun g => negb (varint_as 1 g)) fs = true ->
      parse_timestamp (serialize fs ++ tag_bs ++ rest)
      = Raise (UnknownWireType (Z.land tag 7)))
  /\ (forall info,
         assemble fs ∅ = Return info ->
         parse_oauth_token_info (serialize fs ++ tag_bs ++ rest)
         = Raise (UnknownWireType (Z.land tag 7))).
Proof.
  intros Hvalid Htag H0 H1 H2 H5.
  pose proof (tag_in_buffer (serialize fs) tag_bs rest tag Htag) as Hin.
  pose proof (read_varint_at (serialize fs) tag_bs rest tag Htag) as Hread.
  pose proof (proj2 (Z.eqb_neq _ _) H0) as E0.
  pose proof (proj2 (Z.eqb_neq _ _) H2) as E2.
  split; [|split].
  - intros target Hnone.
    rewrite find_field_after_fields
      by (assumption || by apply first_length_delimited_none).
    cbn [find_field_loop]. rewrite Hin, Hread, E2, andb_false_r.
    by rewrite skip_field_unknown.
  - intros Hnone. rewrite parse_timestamp_then_anything by assumption.
    rewrite first_varint_none by assumption.
    cbn [parse_timestamp_loop]. rewrite Hin, Hread.
    cbn [mbind outcome_bind]. rewrite E0, andb_false_r.
    by rewrite skip_field_unknown.
  - intros info Hinfo.
    rewrite parse_oauth_token_info_then_anything by assumption.
    rewrite Hinfo. cbn [mbind outcome_bind parse_oauth_token_info_loop].
    rewrite Hin, Hread. cbn [mbind outcome_bind]. rewrite E2.
    by rewrite skip_field_unknown.
Qed.

Lemma scans_reject_unknown_wire_type_witness :
  find_field (serialize [Field [x10] (Varint [x01])] ++ [x33] ++ [x01]) 6
  = Raise (UnknownWireType (Z.land 51 7))
  /\ parse_timestamp (serialize [Field [x10] (Varint [x01])] ++ [x33] ++ [x01])
     = Raise (UnknownWireType (Z.land 51 7))
  /\ parse_oauth_token_info
       (serialize [Field [x10] (Varint [x01])] ++ [x33] ++ [x01])
     = Raise (UnknownWireType (Z.land 51 7)).
Proof.
  pose proof (scans_reject_unknown_wire_type
                [Field [x10] (Varint [x01])] [x33] [x01] 51
                eq_refl eq_refl ltac:(discriminate) ltac:(discriminate)
                ltac:(discriminate) ltac:(discriminate)) as (H1 & H2 & H3).
  split; [|split].
  - apply H1. reflexivity.
  - apply H2. reflexivity.
  - apply (H3 ∅). reflexivity.
Defined.

(** X5. On a well-formed sub-blob, and whatever bytes follow it,
    [parse_timestamp] returns the value of the first varint field numbered
    1: the fields before it are skipped, the fields and bytes after it are
    not read, and the value is not negative. *)
Theorem parse_timestamp_first_seconds (fs1 fs2 : list field) (f : field)
        (raw junk : bytes) :
  forallb valid_field (fs1 ++ f :: fs2) = true ->
  forallb (fun g => negb (varint_as 1 g)) fs1 = true ->
  body f = Varint raw ->
  field_number f = 1 ->
  exists seconds,
    varint_value raw = Some seconds
    /\ 0 <= seconds
    /\ parse_timestamp (serialize (fs1 ++ f :: fs2) ++ junk)
       = Return (Some seconds).
Proof.
  intros Hvalid Hbefore Hbody Hnum.
  pose proof (forallb_middle _ _ _ _ Hvalid) as (_ & Hf & _).
  pose proof (valid_field_payload f Hf) as Hp. rewrite Hbody in Hp.
  apply bool_decide_eq_true in Hp as [seconds Hs].
  exists seconds. split; [exact Hs|]. split; [by apply varint_value_nonneg in Hs|].
  rewrite parse_timestamp_then_anything by assumption.
  rewrite first_varint_app by assumption.
  cbn [first_varint]. by rewrite Hbody, Hnum, Z.eqb_refl, Hs.
Qed.

Lemma parse_timestamp_first_seconds_witness :
  exists seconds,
    varint_value [x80; xe2; xcf; xaa; x06] = Some seconds
    /\ 0 <= seconds
    /\ parse_timestamp
         (serialize ([Field [x0a] (LengthDelimited [x01] [x41])]
                     ++ Field [x08] (Varint [x80; xe2; xcf; xaa; x06])
                        :: [Field [x08] (Varint [x05])])
          ++ [xff; xff])
       = Return (Some seconds).
Proof.
  apply (parse_timestamp_first_seconds
           [Field [x0a] (LengthDelimited [x01] [x41])]
           [Field [x08] (Varint [x05])]
           (Field [x08] (Varint [x80; xe2; xcf; xaa; x06]))
           [x80; xe2; xcf; xaa; x06] [xff; xff]); reflexivity.
Defined.

(** X6. [parse_timestamp] and [parse_oauth_token_info] read their tags with
    no guard: bytes that follow the valid fields and do not hold a whole
    varint make both raise the incomplete varint error, where [find_field]
    would answer [None]. *)
Theorem unguarded_scans_fail_on_trailing_bytes (fs : list field)
        (junk : bytes) :
  forallb valid_field fs = true ->
  junk <> [] ->
  read_varint junk 0 = Raise IncompleteVarint ->
  (forallb (fun g => negb (varint_as 1 g)) fs = true ->
   parse_timestamp (serialize fs ++ junk) = Raise IncompleteVarint)
  /\ (forall info,
         assemble fs ∅ = Return info ->
         parse_oauth_token_info (serialize fs ++ junk)
         = Raise IncompleteVarint).
Proof.
  intros Hvalid Hne Hjunk.
  assert (Hin : (len (serialize fs) <? len (serialize fs ++ junk)) = true).
  { apply Z.ltb_lt. rewrite len_app. destruct junk; [done|].
    rewrite len_cons. pose proof (len_nonneg junk). lia. }
  assert (Hread : read_varint (serialize fs ++ junk) (len (serialize fs))
                  = Raise IncompleteVarint).
  { rewrite <- (Z.add_0_r (len (serialize fs))).
    rewrite read_varint_prefix by lia. by rewrite Hjunk. }
  split.
  - intros Hnone. rewrite parse_timestamp_then_anything by assumption.
    rewrite first_varint_none by assumption.
    cbn [parse_timestamp_loop]. by rewrite Hin, Hread.
  - intros info Hinfo.
    rewrite parse_oauth_token_info_then_anything by assumption.
    rewrite Hinfo. cbn [mbind outcome_bind parse_oauth_token_info_loop].
    by rewrite Hin, Hread.
Qed.

Lemma unguarded_scans_fail_on_trailing_bytes_witness :
  parse_timestamp (serialize [Field [x10] (Varint [x01])] ++ [x80; xff])
  = Raise IncompleteVarint
  /\ parse_oauth_token_info
       (serialize [Field [x1a] (LengthDelimited [x01] [x41])] ++ [x80; xff])
     = Raise IncompleteVarint.
Proof.
  split.
  - apply (unguarded_scans_fail_on_trailing_bytes
             [Field [x10] (Varint [x01])] [x80; xff]);
      (reflexivity || discriminate).
  - apply (proj2 (unguarded_scans_fail_on_trailing_bytes
                    [Field [x1a] (LengthDelimited [x01] [x41])] [x80; xff]
                    eq_refl ltac:(discriminate) eq_refl)
                 (<["refresh_token" := PyStr (text "A")]> ∅)).
    reflexivity.
Defined.

(** ** Further properties of the Credential Record Decoder *)

(** X7. A length-delimited field 1, 2 or 3 whose bytes are not valid UTF-8
    makes [parse_oauth_token_info] raise [UnicodeDecodeError], when the
    fields before it were stored, whatever comes after it. *)
Theorem parse_oauth_token_info_invalid_utf8 (fs1 fs2 : list field) (f : field)
        (length_raw value : bytes) (key : string)
        (info1 : gmap string pyval) :
  forallb valid_field (fs1 ++ f :: fs2) = true ->
  body f = LengthDelimited length_raw value ->
  record_key (field_number f) = Some key ->
  field_number f <> 4 ->
  utf8_decode value = None ->
  assemble fs1 ∅ = Return info1 ->
  parse_oauth_token_info (serialize (fs1 ++ f :: fs2))
  = Raise UnicodeDecodeError.
Proof.
  intros Hvalid Hbody Hkey Hnum Hutf Hbefore.
  rewrite (parse_oauth_token_info_around _ _ _ _ _ _ Hvalid Hbody Hkey).
  rewrite Hbefore. cbn [mbind outcome_bind].
  unfold record_value, decode_utf8.
  destruct (Z.eqb_spec (field_number f) 4); [done|]. by rewrite Hutf.
Qed.

Lemma parse_oauth_token_info_invalid_utf8_witness :
  parse_oauth_token_info
    (serialize ([Field [x0a] (LengthDelimited [x01] [x41])]
                ++ Field [x1a] (LengthDelimited [x02] [xc3; x28])
                   :: [Field [x12] (LengthDelimited [x01] [x42])]))
  = Raise UnicodeDecodeError.
Proof.
  apply (parse_oauth_token_info_invalid_utf8
           [Field [x0a] (LengthDelimited [x01] [x41])]
           [Field [x12] (LengthDelimited [x01] [x42])]
           (Field [x1a] (LengthDelimited [x02] [xc3; x28]))
           [x02] [xc3; x28] "refresh_token"
           (<["access_token" := PyStr (text "A")]> ∅));
    (reflexivity || discriminate).
Defined.

Lemma assemble_filter_stored (fs : list field) (info : gmap string pyval) :
  assemble (List.filter stored fs) info = assemble fs info.
Proof.
  revert info. induction fs as [|f fs IH]; intros info; [reflexivity|].
  cbn [List.filter assemble].
  destruct (stored f) eqn:Hs.
  - cbn [assemble]. destruct (store_field info f); [|reflexivity].
    cbn [mbind outcome_bind]. apply IH.
  - assert (Hskip : store_field info f = Return info).
    { unfold store_field. unfold stored in Hs.
      destruct (body f); try reflexivity.
      by destruct (record_key (field_number f)). }
    rewrite Hskip. cbn [mbind outcome_bind]. apply IH.
Qed.

Lemma forallb_filter_true {A} (p q : A -> bool) (l : list A) :
  forallb p l = true -> forallb p (List.filter q l) = true.
Proof.
  induction l as [|x l IH]; intros H; [reflexivity|].
  apply forallb_cons_true in H as [Hx Hl]. cbn [List.filter].
  destruct (q x); [cbn [forallb]; rewrite Hx|]; auto.
Qed.

(** X8. Fields that are not stored play no part in the record: on a
    well-formed sub-blob [parse_oauth_token_info] gives what it gives on the
    sub-blob from which every field but the length-delimited fields 1 to 4
    is taken away, be it a record or a failure. *)
Theorem parse_oauth_token_info_ignores_other_fields (fs : list field) :
  forallb valid_field fs = true ->
  parse_oauth_token_info (serialize fs)
  = parse_oauth_token_info (serialize (List.filter stored fs)).
Proof.
  intros Hvalid.
  rewrite !parse_oauth_token_info_serialize
    by (assumption || by apply forallb_filter_true).
  by rewrite assemble_filter_stored.
Qed.

Lemma parse_oauth_token_info_ignores_other_fields_witness :
  parse_oauth_token_info
    (serialize [Field [x08] (Varint [xac; x02]);
                Field [x1a] (LengthDelimited [x01] [x41]);
                Field [x3a] (LengthDelimited [x02] [xff; xfe]);
                Field [x1d] (Fixed32 [x00; x01; x02; x03])])
  = parse_oauth_token_info
      (serialize
         (List.filter stored
            [Field [x08] (Varint [xac; x02]);
             Field [x1a] (LengthDelimited [x01] [x41]);
             Field [x3a] (LengthDelimited [x02] [xff; xfe]);
             Field [x1d] (Fixed32 [x00; x01; x02; x03])])).
Proof.
  apply parse_oauth_token_info_ignores_other_fields. reflexivity.
Defined.

Lemma parse_timestamp_loop_nonneg (data : bytes) (seconds : Z) :
  forall (fuel : nat) (o : Z),
    0 <= o ->
    parse_timestamp_loop fuel data o = Return (Some seconds) ->
    0 <= seconds.
Proof.
  induction fuel as [|fuel IH]; intros o Ho H; [discriminate|].
  cbn [parse_timestamp_loop] in H.
  destruct (o <? len data); [|discriminate].
  destruct (read_varint_cases data o Ho) as [(tag & p & Hr & _ & Hp)|Hr];
    rewrite Hr in H; [|discriminate].
  cbn [mbind outcome_bind] in H.
  destruct ((Z.shiftr tag 3 =? 1) && (Z.land tag 7 =? 0)).
  - destruct (read_varint_cases data p) as [(s & q & Hr' & Hs & _)|Hr'];
      [lia| |]; rewrite Hr' in H; [|discriminate].
    cbn in H. by injection H as <-.
  - destruct (skip_field_cases data p (Z.land tag 7))
      as [(q & Hq & Hle)|[Hq|Hq]]; [lia| | |];
      rewrite Hq in H; try discriminate.
    cbn [mbind outcome_bind] in H. apply (IH q); [lia|assumption].
Qed.

Lemma parse_oauth_token_info_loop_shape (data : bytes) :
  forall (fuel : nat) (info info' : gmap string pyval) (o : Z),
    0 <= o ->
    map_Forall entry_ok info ->
    parse_oauth_token_info_loop fuel data info o = Return info' ->
    map_Forall entry_ok info'.
Proof.
  induction fuel as [|fuel IH]; intros info info' o Ho Hinfo H;
    [discriminate|].
  cbn [parse_oauth_token_info_loop] in H.
  destruct (o <? len data); [|by injection H as <-].
  destruct (read_varint_cases data o Ho) as [(tag & p & Hr & _ & Hp)|Hr];
    rewrite Hr in H; [|discriminate].
  cbn [mbind outcome_bind] in H.
  destruct (Z.land tag 7 =? 2).
  - destruct (read_varint_cases data p) as [(n & q & Hr' & Hn & Hq)|Hr'];
      [lia| |]; rewrite Hr' in H; [|discriminate].
    cbn [mbind outcome_bind] in H.
    match type of H with
    | mbind _ ?m = _ => destruct m as [info1|e1] eqn:Hstore
    end; [|discriminate].
    cbn [mbind outcome_bind] in H.
    apply (IH info1 info' (q + n)); [lia| |assumption].
    repeat match type of Hstore with
           | (if ?c then _ else _) = _ => destruct c
           end;
      try (by injection Hstore as <-);
      match type of Hstore with
      | mbind _ ?m = _ => destruct m as [x|e2] eqn:Hm
      end;
      try discriminate; cbn in Hstore; injection Hstore as <-;
      apply map_Forall_insert_2; try assumption; cbn; auto.
    destruct x as [seconds|]; cbn; [|reflexivity].
    split; [reflexivity|].
    by apply (parse_timestamp_loop_nonneg _ _ _ 0 ltac:(lia) Hm).
  - destruct (skip_field_cases data p (Z.land tag 7))
      as [(q & Hq & Hle)|[Hq|Hq]]; [lia| | |];
      rewrite Hq in H; try discriminate.
    cbn [mbind outcome_bind] in H.
    apply (IH info info' q); [lia|assumption|assumption].
Qed.

(** X9. Whatever the bytes, a record that [parse_oauth_token_info] returns
    has no key but [access_token], [token_type], [refresh_token] and
    [expiry_seconds]; what stands under the first three is a text, and
    what stands under [expiry_seconds] is [None] or an integer that is not
    negative. *)
Theorem parse_oauth_token_info_record_shape (data : bytes)
        (info : gmap string pyval) (key : string) (v : pyval) :
  parse_oauth_token_info data = Return info ->
  info !! key = Some v ->
  ((key = "access_token" \/ key = "token_type" \/ key = "refresh_token")
   /\ exists s, v = PyStr s)
  \/ (key = "expiry_seconds"
      /\ (v = PyNone \/ exists n, v = PyInt n /\ 0 <= n)).
Proof.
  intros Hparse Hlookup.
  assert (Hshape : map_Forall entry_ok info).
  { apply (parse_oauth_token_info_loop_shape data (S (length data)) ∅ info 0);
      [lia | apply map_Forall_empty | exact Hparse]. }
  specialize (Hshape key v Hlookup). destruct v as [s|n|]; cbn in Hshape.
  - left. eauto.
  - right. destruct Hshape. eauto.
  - right. auto.
Qed.

Lemma parse_oauth_token_info_record_shape_witness :
  (("expiry_seconds" = "access_token" \/ "expiry_seconds" = "token_type"
    \/ "expiry_seconds" = "refresh_token")
   /\ exists s, PyInt 5 = PyStr s)
  \/ ("expiry_seconds" = "expiry_seconds"
      /\ (PyInt 5 = PyNone \/ exists n, PyInt 5 = PyInt n /\ 0 <= n)).
Proof.
  apply (parse_oauth_token_info_record_shape
           [x22; x02; x08; x05; x1a; x01; x41]
           (<["refresh_token" := PyStr (text "A")]>
              (<["expiry_seconds" := PyInt 5]> ∅))
           "expiry_seconds" (PyInt 5)); reflexivity.
Defined.

(** ** From the state value to the refresh token *)

Lemma serialize_nonempty (fs : list field) :
  forallb valid_field fs = true -> fs <> [] -> serialize fs <> [].
Proof.
  intros Hvalid Hne Hnil. pose proof (fields_le_bytes fs Hvalid) as Hle.
  rewrite Hnil in Hle. destruct fs; [done|]. cbn in Hle. lia.
Qed.

(** X10. From a state whose first length-delimited field 6 holds a
    well-formed, non-empty sub-blob, [read_local_token_info] gives the record
    assembled from the fields of that sub-blob, or fails as the assembling
    fails; fields of the state before it are skipped, and what comes after
    it, fields or any bytes, is not read. *)
Theorem read_local_token_info_end_to_end (fs1 fs2 inner : list field)
        (f : field) (length_raw junk : bytes) :
  forallb valid_field (fs1 ++ f :: fs2) = true ->
  forallb (fun g => negb (length_delimited_as 6 g)) fs1 = true ->
  body f = LengthDelimited length_raw (serialize inner) ->
  field_number f = 6 ->
  forallb valid_field inner = true ->
  inner <> [] ->
  read_local_token_info_from (serialize (fs1 ++ f :: fs2) ++ junk)
  = match assemble inner ∅ with
    | Return token_info => Loaded token_info
    | Raise e => DecodeError e
    end.
Proof.
  intros Hvalid Hbefore Hbody Hnum Hinner Hne.
  unfold read_local_token_info_from.
  rewrite (find_field_match_then_anything 6 _ (serialize inner)); try assumption.
  - pose proof (serialize_nonempty inner Hinner Hne) as Hbytes.
    destruct (serialize inner) as [|b rest] eqn:Hs; [done|].
    rewrite <- Hs. by rewrite parse_oauth_token_info_serialize.
  - rewrite first_length_delimited_app by assumption.
    cbn [first_length_delimited]. by rewrite Hbody, Hnum.
Qed.

Lemma read_local_token_info_end_to_end_witness :
  read_local_token_info_from
    (serialize
       ([Field [x08] (Varint [x01])]
        ++ Field [x32]
             (LengthDelimited [x0d]
                (serialize
                   [Field [x1a]
                      (LengthDelimited [x0b]
                         [x72; x65; x66; x72; x65; x73; x68; x2d;
                          x78; x79; x7a])]))
           :: [Field [x3a] (LengthDelimited [x01] [x00])])
     ++ [xff])
  = Loaded {["refresh_token" := PyStr (text "refresh-xyz")]}.
Proof.
  apply (read_local_token_info_end_to_end
           [Field [x08] (Varint [x01])]
           [Field [x3a] (LengthDelimited [x01] [x00])]
           [Field [x1a]
              (LengthDelimited [x0b]
                 [x72; x65; x66; x72; x65; x73; x68; x2d; x78; x79; x7a])]
           (Field [x32]
              (LengthDelimited [x0d]
                 (serialize
                    [Field [x1a]
                       (LengthDelimited [x0b]
                          [x72; x65; x66; x72; x65; x73; x68; x2d;
                           x78; x79; x7a])])))
           [x0d] [xff]); (reflexivity || discriminate).
Defined.

(** X11. [read_local_token_info] reports that there are no credentials, and
    no decoding error, when the well-formed state has no length-delimited
    field 6, also when bytes that hold no whole varint follow; and when the
    first length-delimited field 6 is empty, even if a later field 6 is
    not. *)
Theorem read_local_token_info_no_credentials :
  (forall (fs : list field) (junk : bytes),
      forallb valid_field fs = true ->
      forallb (fun g => negb (length_delimited_as 6 g)) fs = true ->
      read_varint junk 0 = Raise IncompleteVarint ->
      read_local_token_info_from (serialize fs ++ junk) = NoCredentials)
  /\ (forall (fs1 fs2 : list field) (f : field) (length_raw : bytes),
         forallb valid_field (fs1 ++ f :: fs2) = true ->
         forallb (fun g => negb (length_delimited_as 6 g)) fs1 = true ->
         body f = LengthDelimited length_raw [] ->
         field_number f = 6 ->
         read_local_token_info_from (serialize (fs1 ++ f :: fs2))
         = NoCredentials).
Proof.
  split.
  - intros fs junk Hvalid Hnone Hjunk. unfold read_local_token_info_from.
    rewrite find_field_after_fields
      by (assumption || by apply first_length_delimited_none).
    cbn [find_field_loop].
    destruct (len (serialize fs) <? len (serialize fs ++ junk));
      [|reflexivity].
    rewrite <- (Z.add_0_r (len (serialize fs))).
    rewrite read_varint_prefix by lia. by rewrite Hjunk.
  - intros fs1 fs2 f length_raw Hvalid Hbefore Hbody Hnum.
    unfold read_local_token_info_from.
    rewrite find_field_serialize by assumption.
    rewrite first_length_delimited_app by assumption.
    cbn [first_length_delimited]. by rewrite Hbody, Hnum.
Qed.

Lemma read_local_token_info_no_credentials_witness :
  read_local_token_info_from
    (serialize [Field [x08] (Varint [x01])] ++ [x80]) = NoCredentials
  /\ read_local_token_info_from
       (serialize ([Field [x08] (Varint [x01])]
                   ++ Field [x32] (LengthDelimited [x00] [])
                      :: [Field [x32] (LengthDelimited [x03]
                                         [x1a; x01; x41])]))
     = NoCredentials.
Proof.
  pose proof read_local_token_info_no_credentials as [H1 H2]. split.
  - apply H1; reflexivity.
  - apply (H2 _ _ _ [x00]); reflexivity.
Defined.

(** X12. Of a record that [parse_oauth_token_info] returned, on any bytes,
    [main] hands to [refresh_access_token] a text that is not empty, the one
    under [refresh_token]; it stops before that exactly when the key is
    missing or holds the empty text. *)
Theorem login_refresh_token_of_record (data : bytes)
        (token_info : gmap string pyval) :
  parse_oauth_token_info data = Return token_info ->
  (login_refresh_token token_info = None
   <-> token_info !! "refresh_token" = None
       \/ token_info !! "refresh_token" = Some (PyStr []))
  /\ forall v,
       login_refresh_token token_info = Some v ->
       token_info !! "refresh_token" = Some v
       /\ exists s, v = PyStr s /\ s <> [].
Proof.
  intros Hparse. unfold login_refresh_token.
  destruct (token_info !! "refresh_token") as [v|] eqn:Hlookup.
  - destruct (parse_oauth_token_info_record_shape _ _ _ _ Hparse Hlookup)
      as [[_ [s ->]]|[Hkey _]]; [|discriminate].
    destruct s as [|c s]; cbn [truthy negb].
    + split; [split; auto|discriminate].
    + split.
      * split; [discriminate|]. intros [?|?]; discriminate.
      * intros v Hv. injection Hv as <-. split; [reflexivity|].
        by exists (c :: s).
  - split; [split; auto|discriminate].
Qed.

Lemma login_refresh_token_of_record_witness :
  (login_refresh_token {["refresh_token" := PyStr (text "A")]} = None
   <-> ({["refresh_token" := PyStr (text "A")]} : gmap string pyval)
       !! "refresh_token" = None
       \/ ({["refresh_token" := PyStr (text "A")]} : gmap string pyval)
          !! "refresh_token" = Some (PyStr []))
  /\ forall v,
       login_refresh_token {["refresh_token" := PyStr (text "A")]} = Some v ->
       ({["refresh_token" := PyStr (text "A")]} : gmap string pyval)
       !! "refresh_token" = Some v
       /\ exists s, v = PyStr s /\ s <> [].
Proof.
  apply (login_refresh_token_of_record [x1a; x01; x41]). reflexivity.
Defined.

(** ** The project sent with the request for the models *)

(** X13. What [extract_project_id] returns is never a value that counts as
    false: it is the project itself when that is a text that is not empty,
    or what stands under [id] in the project when the project is a
    dictionary, of whatever type that value is; in every other case it
    returns [None]. *)
Theorem extract_project_id_result (data : gmap string json) :
  (forall v,
      extract_project_id data = Some v ->
      json_truthy v = true
      /\ ((exists s, v = JStr s
                     /\ data !! "cloudaicompanionProject" = Some v)
          \/ (exists d, data !! "cloudaicompanionProject" = Some (JDict d)
                        /\ d !! "id" = Some v)))
  /\ (extract_project_id data = None ->
      forall v, data !! "cloudaicompanionProject" = Some v ->
                match v with
                | JStr s => s = []
                | JDict d => json_truthy (dict_get d "id") = false
                | _ => True
                end).
Proof.
  unfold extract_project_id, dict_get. split.
  - intros v H.
    destruct (data !! "cloudaicompanionProject") as [project|];
      [|discriminate].
    destruct project as [|b|n|x|s|l|d]; try discriminate.
    + destruct s as [|c s]; [discriminate|]. injection H as <-.
      split; [reflexivity|]. left. by eexists.
    + destruct (d !! "id") as [w|] eqn:Hid; [|discriminate].
      destruct (json_truthy w) eqn:Hw; [|discriminate].
      injection H as <-. split; [assumption|]. right. by exists d.
  - intros H v Hv. rewrite Hv in H.
    destruct v as [|b|n|x|s|l|d]; try exact I.
    + by destruct s.
    + destruct (d !! "id") as [w|]; [|reflexivity].
      by destruct (json_truthy w).
Qed.

Lemma extract_project_id_result_witness :
  json_truthy (JInt 7) = true
  /\ ((exists s, JInt 7 = JStr s
                 /\ ({["cloudaicompanionProject" := JDict {["id" := JInt 7]}]}
                     : gmap string json)
                    !! "cloudaicompanionProject" = Some (JInt 7))
      \/ (exists d,
             ({["cloudaicompanionProject" := JDict {["id" := JInt 7]}]}
              : gmap string json)
             !! "cloudaicompanionProject" = Some (JDict d)
             /\ d !! "id" = Some (JInt 7))).
Proof.
  apply (proj1 (extract_project_id_result
                  {["cloudaicompanionProject" := JDict {["id" := JInt 7]}]})).
  reflexivity.
Defined.

(** X14. The payload that [fetch_available_models] posts for the project
    that [extract_project_id] found has the key [project] exactly when a
    project was found, with the value that was found, and has no other
    key. *)
Theorem models_payload_of_extracted_project (data : gmap string json)
        (key : string) :
  models_payload (extract_project_id data) !! "project"
  = extract_project_id data
  /\ (key <> "project" ->
      models_payload (extract_project_id data) !! key = None).
Proof.
  destruct (extract_project_id data) as [v|] eqn:H.
  - destruct (proj1 (extract_project_id_result data) v H) as [Hv _].
    unfold models_payload. rewrite Hv. split.
    + apply lookup_insert_eq.
    + intros Hkey. rewrite lookup_insert_ne by done. apply lookup_empty.
  - split; [reflexivity|]. intros _. apply lookup_empty.
Qed.

Lemma models_payload_of_extracted_project_witness :
  models_payload
    (extract_project_id {["cloudaicompanionProject" := JStr (text "p-1")]})
  !! "project"
  = extract_project_id {["cloudaicompanionProject" := JStr (text "p-1")]}
  /\ models_payload
       (extract_project_id {["cloudaicompanionProject" := JStr (text "p-1")]})
     !! "metadata" = None.
Proof.
  pose proof (models_payload_of_extracted_project
                {["cloudaicompanionProject" := JStr (text "p-1")]}
                "metadata") as [H1 H2].
  split; [exact H1 | apply H2; discriminate].
Defined.

(** ** The name column of the table *)

(** X15. The cell of the name in a row of [print_quota_table] is 35
    characters wide whatever the name; a name of at most 33 characters
    stands in it whole, and of a longer name the first 30 characters stand
    in it, followed by three dots. *)
Theorem name_cell_width (display_name : str) :
  length (name_cell display_name) = 35%nat
  /\ ((length display_name <= 33)%nat ->
      name_cell display_name
      = display_name ++ replicate (35 - length display_name) 32)
  /\ ((33 < length display_name)%nat ->
      name_cell display_name
      = take 30 display_name ++ text "..." ++ [32; 32]).
Proof.
  unfold name_cell, ljust, shown_name.
  destruct (33 <? Z.of_nat (length display_name)) eqn:E.
  - apply Z.ltb_lt in E.
    assert (Hlen : length (take 30 display_name ++ text "...") = 33%nat).
    { rewrite length_app, length_take. cbn [text length map
        String.list_ascii_of_string]. lia. }
    rewrite Hlen. split; [|split].
    + rewrite length_app, Hlen. reflexivity.
    + lia.
    + intros _. by rewrite <- app_assoc.
  - apply Z.ltb_ge in E. split; [|split].
    + rewrite length_app, length_replicate. lia.
    + reflexivity.
    + lia.
Qed.

Lemma name_cell_width_witness :
  name_cell (text "gemini-3-pro")
  = text "gemini-3-pro" ++ replicate (35 - length (text "gemini-3-pro")) 32
  /\ name_cell (text "a-model-with-a-display-name-of-40-chars!")
     = take 30 (text "a-model-with-a-display-name-of-40-chars!")
       ++ text "..." ++ [32; 32].
Proof.
  split.
  - apply (name_cell_width (text "gemini-3-pro")). cbn. lia.
  - apply (name_cell_width (text "a-model-with-a-display-name-of-40-chars!")).
    cbn. lia.
Defined.

(** ** Integers of any size *)

Lemma encode_varint_bytes_length (n : nat) (v : Z) :
  (length (encode_varint_bytes n v) <= n)%nat.
Proof.
  revert v. induction n as [|n IH]; intros v; [cbn; lia|].
  cbn [encode_varint_bytes]. destruct (v <? 128); cbn [length]; [lia|].
  specialize (IH (v / 128)). lia.
Qed.

(** X16. [read_varint] does not cut a value to 64 bits: an integer below
    [128 ^ n], written in base 128 with continuation bits on at most [n]
    bytes, is read back as it is, for every [n]. *)
Theorem read_varint_any_size (n : nat) (v : Z) :
  0 <= v < 128 ^ Z.of_nat (S n) ->
  read_varint (encode_varint_bytes (S n) v) 0
  = Return (v, len (encode_varint_bytes (S n) v))
  /\ len (encode_varint_bytes (S n) v) <= Z.of_nat (S n).
Proof.
  intros Hv. split.
  - pose proof (read_varint_at [] _ [] v (encode_varint_bytes_value n v Hv))
      as H.
    by rewrite app_nil_r in H.
  - pose proof (encode_varint_bytes_length (S n) v). unfold len. lia.
Qed.

Lemma read_varint_any_size_witness :
  read_varint (encode_varint_bytes 11 (2 ^ 70 + 5)) 0
  = Return (2 ^ 70 + 5, len (encode_varint_bytes 11 (2 ^ 70 + 5)))
  /\ len (encode_varint_bytes 11 (2 ^ 70 + 5)) <= Z.of_nat 11.
Proof.
  apply (read_varint_any_size 10 (2 ^ 70 + 5)).
  split; [discriminate | reflexivity].
Defined.

(** ** A record cut short *)

(** X17. [parse_oauth_token_info] does not compare the length a field
    declares with what is left of the buffer: when the last field, one of
    the length-delimited fields 1 to 4, declares at least as many bytes as
    remain, the bytes that remain are taken as its value and stored, and
    the record is returned. *)
Theorem parse_oauth_token_info_truncated_field (fs : list field)
        (tag_bs length_raw rest : bytes) (tag l : Z) (key : string)
        (info : gmap string pyval) :
  forallb valid_field fs = true ->
  assemble fs ∅ = Return info ->
  varint_value tag_bs = Some tag ->
  Z.land tag 7 = 2 ->
  record_key (Z.shiftr tag 3) = Some key ->
  varint_value length_raw = Some l ->
  len rest <= l ->
  parse_oauth_token_info (serialize fs ++ tag_bs ++ length_raw ++ rest)
  = (v ← record_value (Z.shiftr tag 3) rest; Return (<[key := v]> info)).
Proof.
  intros Hvalid Hinfo Htag Hwire Hkey Hlen Hrest.
  set (f := Field tag_bs (LengthDelimited length_raw rest)).
  assert (Hnum : field_number f = Z.shiftr tag 3).
  { unfold field_number, tag_value. cbn [tag_raw f]. by rewrite Htag. }
  rewrite parse_oauth_token_info_then_anything by assumption.
  rewrite Hinfo. cbn [mbind outcome_bind].
  pose proof (varint_value_nonempty _ _ Htag) as Hne.
  pose proof (varint_value_nonempty _ _ Hlen) as Hne'.
  pose proof (len_nonneg rest) as Hr.
  pose proof (fields_le_bytes fs Hvalid) as Hle.
  remember (serialize fs ++ tag_bs ++ length_raw ++ rest) as data eqn:Hdata.
  assert (Hsize : len data
                  = len (serialize fs) + len tag_bs + len length_raw + len rest)
    by (subst data; rewrite !len_app; lia).
  destruct (length data - length fs)%nat as [|fuel] eqn:Hfuel.
  { unfold len in *. lia. }
  cbn [parse_oauth_token_info_loop].
  destruct (len (serialize fs) <? len data) eqn:E; [|lia].
  assert (Hread : read_varint data (len (serialize fs))
                  = Return (tag, len (serialize fs) + len tag_bs))
    by (subst data; by apply read_varint_at).
  rewrite Hread. cbn [mbind outcome_bind].
  rewrite Hwire. cbn [Z.eqb Pos.eqb].
  assert (Hread' : read_varint data (len (serialize fs) + len tag_bs)
                   = Return (l, len (serialize fs) + len tag_bs
                                + len length_raw)).
  { subst data. rewrite (app_assoc (serialize fs) tag_bs), <- len_app.
    by apply read_varint_at. }
  rewrite Hread'. cbn [mbind outcome_bind].
  assert (Hslice : slice data
                     (len (serialize fs) + len tag_bs + len length_raw)
                     (len (serialize fs) + len tag_bs + len length_raw + l)
                   = rest).
  { subst data.
    rewrite (app_assoc (serialize fs) tag_bs), <- (len_app (serialize fs)).
    rewrite (app_assoc (serialize fs ++ tag_bs) length_raw), <- len_app.
    by apply slice_short. }
  rewrite Hslice, <- Hnum.
  rewrite (store_field_dispatch info f length_raw rest eq_refl).
  rewrite (store_field_key info f length_raw rest key eq_refl)
    by (by rewrite Hnum).
  destruct (record_value (field_number f) rest) as [v|e]; [|reflexivity].
  cbn [mbind outcome_bind parse_oauth_token_info_loop].
  destruct (len (serialize fs) + len tag_bs + len length_raw + l <? len data)
           eqn:E'; [lia|reflexivity].
Qed.

Lemma parse_oauth_token_info_truncated_field_witness :
  parse_oauth_token_info
    (serialize [Field [x0a] (LengthDelimited [x01] [x41])]
     ++ [x1a] ++ [x05] ++ [x52; x54])
  = (v ← record_value (Z.shiftr 26 3) [x52; x54];
     Return (<["refresh_token" := v]>
               (<["access_token" := PyStr (text "A")]> ∅))).
Proof.
  apply (parse_oauth_token_info_truncated_field
           [Field [x0a] (LengthDelimited [x01] [x41])]
           [x1a] [x05] [x52; x54] 26 5 "refresh_token");
    (reflexivity || discriminate).
Defined.
